(** * dqchecker: the data-quality checker of [src/dq.py]

    A shallow embedding of [DataQualityChecker] and of the parts of the
    Python runtime it relies on ([dict | dict], [str.lower], [str.format],
    [importlib.import_module]), followed by the properties of one check run.

    Conventions.
    - A Python [str] is a Rocq [string] read as a sequence of code points
      below 256 (Latin-1); larger code points are not represented.
    - A Python [dict] with string keys whose order is never observed
      (attributes, connection parameters, keyword arguments) is a
      [gmap string _]; the [sources] mapping, whose insertion order drives
      the query loop, is an association list with distinct keys.
    - Everything outside the process (database, files, importable modules,
      push gateway) is a field of [env]; oracles that may answer differently
      over time receive the history of events so far. *)

From stdpp Require Import base option list strings gmap fin_maps pretty.
From Stdlib Require Import ZArith Ascii.

(** ** Python values *)

Set Warnings "-register-all".

Inductive pyval : Type :=
| VNone
| VBool (b : bool)
| VInt (n : Z)
| VStr (s : string)
| VList (l : list pyval)
| VTuple (l : list pyval).

(** A row is a tuple of column values, a row-set what [cursor.fetchall()]
    returns: a list of rows. *)
Definition row : Type := list pyval.
Definition rows : Type := list row.

Definition rows_val (r : rows) : pyval := VList (VTuple <$> r).

(** [values_to_compare] as the Python object handed to the action. *)
Definition row_sets_val (vs : list rows) : pyval := VList (rows_val <$> vs).

(** ** Exceptions and results *)

Inductive exn : Type :=
| KeyError (key : pyval)
| IndexError
| ValueError (msg : string)
| AttributeError (msg : string)
| ModuleNotFoundError (name : string)
| FileNotFoundError (path : string)
| TypeError (msg : string)
| External (name : string).
    (* raised by the database driver, a plugin or the gateway client *)

Inductive result (A : Type) : Type :=
| Ok (a : A)
| Err (e : exn).
Arguments Ok {A} a.
Arguments Err {A} e.

(** [d[k]] on a dict with string keys. *)
Definition getitem {A} (d : gmap string A) (k : string) : result A :=
  match d !! k with
  | Some v => Ok v
  | None => Err (KeyError (VStr k))
  end.

(** [a | b]: the keys of both, the values of [b] where both have the key. *)
Definition dict_or {A} (a b : gmap string A) : gmap string A := b ∪ a.

(** Truth value of an [Optional[str]]: [None] and [""] are false. *)
Definition truthy (o : option string) : bool :=
  match o with
  | None => false
  | Some s => negb (String.eqb s "")
  end.

(** ** [str.lower] on code points below 256

    [A-Z] and the Latin-1 capitals U+00C0..U+00DE (except the
    multiplication sign U+00D7) move up by 32; every other code point
    below 256 is left as it is. *)
Definition lower_char (c : ascii) : ascii :=
  let n := N_of_ascii c in
  if ((65 <=? n) && (n <=? 90))%N then ascii_of_N (n + 32)
  else if ((192 <=? n) && (n <=? 222) && negb (n =? 215))%N then ascii_of_N (n + 32)
  else c.

Fixpoint lower (s : string) : string :=
  match s with
  | EmptyString => EmptyString
  | String c r => String (lower_char c) (lower r)
  end.

(** ** [str(v)] / [format(v, "")]

    Defined for the scalars a configuration document holds. The text of a
    list or tuple goes through [repr], which is not modelled: [None]. An
    integer of more than 4300 digits has no text either (the conversion
    is refused); [None] as well. *)
Definition max_str_digits : Z := 4300.

Definition int_has_text (n : Z) : bool := (Z.abs n <? 10 ^ max_str_digits)%Z.

Definition py_str (v : pyval) : option string :=
  match v with
  | VNone => Some "None"
  | VBool true => Some "True"
  | VBool false => Some "False"
  | VInt n => if int_has_text n then Some (pretty n) else None
  | VStr s => Some s
  | VList _ | VTuple _ => None
  end.

Arguments int_has_text : simpl never.

(** ** [str.format] with keyword arguments

    The format string is read left to right as CPython's markup iterator
    does: literal text, the escapes [{{] and [}}], and replacement fields
    [{name}]. A field is rendered as soon as it has been read, so the
    first problem met from the left decides the exception.

    Modelled: fields that are a bare argument name. A field with a
    conversion ([!r]), a format specification ([:>10]), an attribute or an
    index ([.a], [[0]]) ends the scan with [ScanBeyond]: the model says
    nothing about such a template. *)

Inductive segment : Type :=
| Lit (c : ascii)
| Field (name : string).

Inductive scan_end : Type :=
| ScanDone
| ScanError (e : exn)
| ScanBeyond.

Definition is_brace_open (c : ascii) : bool := Ascii.eqb c "{".
Definition is_brace_close (c : ascii) : bool := Ascii.eqb c "}".

(** [rev_string acc] is the text read so far, newest character first. *)
Fixpoint rev_string (acc : list ascii) (tail : string) : string :=
  match acc with
  | [] => tail
  | c :: r => rev_string r (String c tail)
  end.

(** [scan None s] reads literal text; [scan (Some acc) s] is inside a
    replacement field whose name so far is [acc] (reversed). *)
Fixpoint scan (field : option (list ascii)) (s : string) : list segment * scan_end :=
  match field with
  | None =>
      match s with
      | EmptyString => ([], ScanDone)
      | String c r =>
          if is_brace_open c then
            match r with
            | EmptyString =>
                ([], ScanError (ValueError "Single '{' encountered in format string"))
            | String c' r' =>
                if is_brace_open c' then
                  let '(segs, e) := scan None r' in (Lit c :: segs, e)
                else scan (Some []) r
            end
          else if is_brace_close c then
            match r with
            | EmptyString =>
                ([], ScanError (ValueError "Single '}' encountered in format string"))
            | String c' r' =>
                if is_brace_close c' then
                  let '(segs, e) := scan None r' in (Lit c :: segs, e)
                else
                  ([], ScanError (ValueError "Single '}' encountered in format string"))
            end
          else
            let '(segs, e) := scan None r in (Lit c :: segs, e)
      end
  | Some acc =>
      match s with
      | EmptyString =>
          ([], ScanError (ValueError "expected '}' before end of string"))
      | String c r =>
          if is_brace_close c then
            let '(segs, e) := scan None r in (Field (rev_string acc "") :: segs, e)
          else if is_brace_open c then
            ([], ScanError (ValueError "unexpected '{' in field name"))
          else if (Ascii.eqb c "!" || Ascii.eqb c ":" || Ascii.eqb c "."
                   || Ascii.eqb c "[")%bool then
            ([], ScanBeyond)
          else scan (Some (c :: acc)) r
      end
  end.

Definition is_digit (c : ascii) : bool :=
  let n := N_of_ascii c in ((48 <=? n) && (n <=? 57))%N.

Fixpoint all_digits (s : string) : bool :=
  match s with
  | EmptyString => true
  | String c r => is_digit c && all_digits r
  end.

(** An empty or all-digit argument name is positional ([{}], [{0}]);
    anything else is a keyword. *)
Definition positional (name : string) : bool := all_digits name.

(** An index of up to 18 digits fits a machine word; a longer one is
    rejected differently and is left out of the model. *)
Definition index_in_range (name : string) : bool :=
  bool_decide (String.length name ≤ 18).

Inductive fmt_outcome : Type :=
| Rendered (s : string)
| Raised (e : exn)
| NotModelled.

(** [check] calls [format] with keyword arguments only, so the tuple of
    positional arguments is empty and every positional field is out of
    range: [IndexError] (its message, which quotes the index, is not
    modelled). *)
Fixpoint render (kwargs : gmap string pyval) (segs : list segment)
    (fin : scan_end) (out : string) : fmt_outcome :=
  match segs with
  | [] =>
      match fin with
      | ScanDone => Rendered out
      | ScanError e => Raised e
      | ScanBeyond => NotModelled
      end
  | Lit c :: r => render kwargs r fin (out +:+ String c "")
  | Field name :: r =>
      if positional name then
        if index_in_range name then Raised IndexError else NotModelled
      else
        match kwargs !! name with
        | None => Raised (KeyError (VStr name))
        | Some v =>
            match py_str v with
            | Some text => render kwargs r fin (out +:+ text)
            | None => NotModelled
            end
        end
  end.

Definition str_format (template : string) (kwargs : gmap string pyval) : fmt_outcome :=
  let '(segs, fin) := scan None template in render kwargs segs fin "".

(** ** Events of a run

    What a run does to the outside world, oldest event first. *)

Inductive log_record : Type :=
| LogMetricName (name : string)
| LogPrometheusMetricName (name : string)
| LogSources (srcs : list (string * gmap string pyval))
| LogAttributes (attrs : gmap string pyval)
| LogQuery (query : string)
| LogMetric (metric_value : pyval)
| LogPushed (name : string) (value : pyval)
| LogComparisonResult (comparison_result : pyval).

(** The arguments [send_metric_to_prometheus] hands to the client
    library, call by call: [Gauge(name, documentation, labelnames,
    registry)] on a fresh registry, [labels(instance='dq')],
    [set(value)] and [push_to_gateway(gateway, job, registry)].
    [gauge_value] is the argument of [set], as passed. What the gauge
    then holds is the library's doing: it converts the argument with
    [float], which rounds a large integer and raises on what is no
    number, in which case nothing is sent. *)
Record push_request : Type := {
  push_gateway : option string;
  push_job : string;
  gauge_name : string;
  gauge_documentation : pyval;
  gauge_labelnames : list string;
  gauge_labels : list (string * string);
  gauge_value : pyval;
}.

(** Which of the two [.run(...)] calls of [check] an event records. *)
Inductive call_site : Type := ActionRun | ComparatorRun.

Inductive event : Type :=
| EvLog (r : log_record)
| EvQuery (conn_params : gmap string pyval) (query : string) (res : result rows)
| EvImport (name : string) (found : bool)
| EvCall (site : call_site) (module : string) (args : list pyval)
         (kwargs : gmap string pyval) (res : result pyval)
| EvPush (req : push_request) (res : result unit).

(** ** The environment of the process *)

(** A Python callable: positional arguments, keyword arguments. *)
Definition pyfun : Type := list event → list pyval → gmap string pyval → result pyval.

(** An importable module; [run] is its attribute of that name, if any. *)
Record pymodule : Type := { run : option pyfun }.

Record env : Type := {
  (** [base_dir.as_posix().split('/')[-1]] *)
  root_folder : string;
  (** YAML documents under [base_dir], by relative path, as
      [yaml.safe_load] returns them. *)
  yml_files : gmap string (gmap string (gmap string pyval));
  (** text files under [base_dir], by relative path *)
  sql_files : gmap string string;
  (** what [importlib.import_module] can import, by dotted name *)
  modules : gmap string pymodule;
  (** connect with the parameters, run one query, fetch all rows, close *)
  pg_fetchall : list event → gmap string pyval → string → result rows;
  (** the client library, given the arguments of [push_request]: build
      the gauge in a fresh registry, label it, convert and set the value,
      push the registry; an error of any of these steps, the conversion
      of the value included, is the result *)
  push_to_gateway : list event → push_request → result unit;
}.

(** ** Runs: outcome and emitted events

    A computation reads the history so far and returns its outcome with
    the events it added. [Beyond] ends a run that left the modelled part
    of [str.format]. *)

Inductive outcome (A : Type) : Type :=
| Ret (a : A)
| Raise (e : exn)
| Beyond.
Arguments Ret {A} a.
Arguments Raise {A} e.
Arguments Beyond {A}.

Definition M (A : Type) : Type := list event → outcome A * list event.

Definition ret {A} (a : A) : M A := λ _, (Ret a, []).

Definition bind {A B} (m : M A) (k : A → M B) : M B :=
  λ h,
    match m h with
    | (Ret a, evs) => let '(o, evs') := k a (h ++ evs) in (o, evs ++ evs')
    | (Raise e, evs) => (Raise e, evs)
    | (Beyond, evs) => (Beyond, evs)
    end.

Notation "x <- m ;; k" := (bind m (λ x, k))
  (at level 100, m at next level, right associativity).
Notation "m ;;; k" := (bind m (λ _, k))
  (at level 100, right associativity).

Definition emit (e : event) : M unit := λ _, (Ret tt, [e]).

Definition lift {A} (r : result A) : M A :=
  λ _, (match r with Ok a => Ret a | Err e => Raise e end, []).

Definition lift_fmt (f : fmt_outcome) : M string :=
  λ _, (match f with
        | Rendered s => Ret s
        | Raised e => Raise e
        | NotModelled => Beyond
        end, []).

(** [logger.info(...)] *)
Definition info (r : log_record) : M unit := emit (EvLog r).

(** ** The checker object *)

Record checker : Type := {
  metric_name : string;
  prometheus_metric_prefix : string;
  prometheus_metric_name : string;
  sources : list (string * gmap string pyval);
  attributes : gmap string pyval;
  connections : gmap string (gmap string pyval);
  prometheus_gateway : option string;
  action : pyval;
  comparator : pyval;
  prometheus_documentation : pyval;
}.

Definition action_function_template : string :=
  "{root_folder}.actions.{action_name}.action".
Definition comparator_function_template : string :=
  "{root_folder}.comparators.{comparator}.comparator".

(** [read_yml_file], [read_sql_file]: [open] fails on a missing file. *)
Definition read_yml_file (E : env) (file_path : string)
    : result (gmap string (gmap string pyval)) :=
  match yml_files E !! file_path with
  | Some content => Ok content
  | None => Err (FileNotFoundError file_path)
  end.

Definition read_sql_file (E : env) (file_path : string) : result string :=
  match sql_files E !! file_path with
  | Some content => Ok content
  | None => Err (FileNotFoundError file_path)
  end.

Definition result_bind {A B} (r : result A) (k : A → result B) : result B :=
  match r with
  | Ok a => k a
  | Err e => Err e
  end.

Notation "x <-? r ;; k" := (result_bind r (λ x, k))
  (at level 100, r at next level, right associativity).

(** [DataQualityChecker.__init__] *)
Definition init (E : env) (metric_name prometheus_metric_prefix : string)
    (sources : list (string * gmap string pyval))
    (attributes : gmap string pyval)
    (connections : gmap string (gmap string pyval))
    (prometheus_gateway : option string) : result checker :=
  content <-? read_yml_file E "metrics_description.yml" ;;
  metric_description <-? getitem content metric_name ;;
  action <-? getitem metric_description "action" ;;
  comparator <-? getitem metric_description "comparator" ;;
  documentation <-? getitem metric_description "prometheus_documentation" ;;
  Ok {| metric_name := metric_name;
        prometheus_metric_prefix := lower prometheus_metric_prefix;
        prometheus_metric_name := lower metric_name;
        sources := sources;
        attributes := attributes;
        connections := connections;
        prometheus_gateway := prometheus_gateway;
        action := action;
        comparator := comparator;
        prometheus_documentation := documentation |}.

(** [DataQualityChecker.fetchall] *)
Definition fetchall (E : env) (conn_params : gmap string pyval) (query : string)
    : M rows :=
  λ h,
    let records := pg_fetchall E h conn_params query in
    (match records with Ok r => Ret r | Err e => Raise e end,
     [EvQuery conn_params query records]).

(** [DataQualityChecker.send_metric_to_prometheus] *)
Definition gauge_of (self : checker) (value : pyval) : push_request :=
  {| push_gateway := prometheus_gateway self;
     push_job := prometheus_metric_prefix self;
     gauge_name := prometheus_metric_name self;
     gauge_documentation := prometheus_documentation self;
     gauge_labelnames := ["instance"];
     gauge_labels := [("instance", "dq")];
     gauge_value := value |}.

Definition send_metric_to_prometheus (E : env) (self : checker) (value : pyval)
    : M unit :=
  (λ h,
     let req := gauge_of self value in
     let res := push_to_gateway E h req in
     (match res with Ok _ => Ret tt | Err e => Raise e end, [EvPush req res])) ;;;
  info (LogPushed (prometheus_metric_name self) value).

(** A dict key must be hashable: a list is not, a tuple is when its items
    are. *)
Fixpoint hashable (v : pyval) : bool :=
  match v with
  | VList _ => false
  | VTuple l => forallb hashable l
  | _ => true
  end.

(** [self.connections[key]] for the value found under ["connection"]:
    the keys of [connections] are strings. *)
Definition connection_of (conns : gmap string (gmap string pyval)) (key : pyval)
    : result (gmap string pyval) :=
  match key with
  | VStr name => getitem conns name
  | _ => if hashable key then Err (KeyError key)
         else Err (TypeError "unhashable type")
  end.

(** [self.sources[source]] *)
Definition source_getitem (srcs : list (string * gmap string pyval)) (source : string)
    : result (gmap string pyval) :=
  match list_find (λ kv, kv.1 = source) srcs with
  | Some (_, (_, params)) => Ok params
  | None => Err (KeyError (VStr source))
  end.

(** [importlib.import_module(name)] *)
Definition import_module (E : env) (name : string) : M pymodule :=
  λ _,
    match modules E !! name with
    | Some m => (Ret m, [EvImport name true])
    | None => (Raise (ModuleNotFoundError name), [EvImport name false])
    end.

(** [module.run] *)
Definition getattr_run (m : pymodule) : M pyfun :=
  lift (match run m with
        | Some f => Ok f
        | None => Err (AttributeError "module has no attribute 'run'")
        end).

(** Calling [f], the [run] of module [name], with positional and keyword
    arguments. *)
Definition call (site : call_site) (name : string) (f : pyfun)
    (args : list pyval) (kwargs : gmap string pyval) : M pyval :=
  λ h,
    let res := f h args kwargs in
    (match res with Ok v => Ret v | Err e => Raise e end,
     [EvCall site name args kwargs res]).

(** One turn of the [for source in self.sources.keys()] loop, up to the
    rows it fetches. *)
Definition query_source (E : env) (self : checker) (source : string) : M rows :=
  source_params <- lift (source_getitem (sources self) source) ;;
  let attrs := dict_or (attributes self) source_params in
  template <- lift (read_sql_file E
                ("metrics/" +:+ lower (metric_name self) +:+ "/metric.sql")) ;;
  query <- lift_fmt (str_format template attrs) ;;
  info (LogQuery query) ;;;
  connection <- lift (getitem source_params "connection") ;;
  conn_params <- lift (connection_of (connections self) connection) ;;
  fetchall E conn_params query.

(** The loop over the keys still to visit, with [values_to_compare] as
    built so far: [values_to_compare.append(rows)] after each turn. *)
Fixpoint query_sources (E : env) (self : checker) (keys : list string)
    (values_to_compare : list rows) : M (list rows) :=
  match keys with
  | [] => ret values_to_compare
  | source :: keys' =>
      rows <- query_source E self source ;;
      query_sources E self keys' (values_to_compare ++ [rows])
  end.

Definition action_module (E : env) (self : checker) : fmt_outcome :=
  str_format action_function_template
    (<["root_folder" := VStr (root_folder E)]> (<["action_name" := action self]> ∅)).

Definition comparator_module (E : env) (self : checker) : fmt_outcome :=
  str_format comparator_function_template
    (<["root_folder" := VStr (root_folder E)]> (<["comparator" := comparator self]> ∅)).

(** What follows the loop in [check]. *)
Definition evaluate (E : env) (self : checker) (values_to_compare : list rows)
    : M unit :=
  action_name <- lift_fmt (action_module E self) ;;
  action_mod <- import_module E action_name ;;
  action_run <- getattr_run action_mod ;;
  metric_value <- call ActionRun action_name action_run [row_sets_val values_to_compare] ∅ ;;
  info (LogMetric metric_value) ;;;
  (if truthy (prometheus_gateway self)
   then send_metric_to_prometheus E self metric_value
   else ret tt) ;;;
  let comparison_kwargs :=
    dict_or (attributes self) (<["metric" := metric_value]> ∅) in
  comparator_name <- lift_fmt (comparator_module E self) ;;
  comparator_mod <- import_module E comparator_name ;;
  comparator_run <- getattr_run comparator_mod ;;
  comparison_result <- call ComparatorRun comparator_name comparator_run [] comparison_kwargs ;;
  info (LogComparisonResult comparison_result).

(** [DataQualityChecker.check] *)
Definition check (E : env) (self : checker) : M unit :=
  info (LogMetricName (metric_name self)) ;;;
  info (LogPrometheusMetricName (prometheus_metric_name self)) ;;;
  info (LogSources (sources self)) ;;;
  info (LogAttributes (attributes self)) ;;;
  values_to_compare <- query_sources E self (sources self).*1 [] ;;
  evaluate E self values_to_compare.

(** ** A sample deployment

    The metric [row_count] of the specification's example: two sources
    whose queries return [[(5,)]] and [[(7,)]], the action [sum_counts]
    and the comparator [greater_than] with threshold 10. *)
Module Sample.

Definition first_cell (v : pyval) : Z :=
  match v with
  | VList (VTuple (VInt n :: _) :: _) => n
  | _ => 0%Z
  end.

Definition sum_counts : pyfun :=
  λ _ args _,
    match args with
    | [VList sets] => Ok (VInt (foldr (λ s acc, (first_cell s + acc)%Z) 0%Z sets))
    | _ => Err (TypeError "run() takes 1 positional argument")
    end.

Definition greater_than : pyfun :=
  λ _ _ kwargs,
    match kwargs !! "metric", kwargs !! "threshold" with
    | Some (VInt m), Some (VInt t) => Ok (VBool (t <? m)%Z)
    | _, _ => Err (TypeError "run() got unexpected arguments")
    end.

Definition entry (action comparator : string) : gmap string pyval :=
  <["action" := VStr action]>
  (<["comparator" := VStr comparator]>
  (<["prometheus_documentation" := VStr "Rows per day"]> ∅)).

(** Three metrics; the action of [orphans] names no module. *)
Definition table : gmap string (gmap string pyval) :=
  <["row_count" := entry "sum_counts" "greater_than"]>
  (<["Late_Rows" := entry "sum_counts" "greater_than"]>
  (<["orphans" := entry "no_such_action" "greater_than"]> ∅)).

Definition db1 : gmap string pyval := {[ "host" := VStr "db1" ]}.
Definition db2 : gmap string pyval := {[ "host" := VStr "db2" ]}.
Definition db3 : gmap string pyval := {[ "host" := VStr "db3" ]}.

(** [db1] and [db2] answer; any other endpoint refuses the connection. *)
Definition database (h : list event) (conn : gmap string pyval) (q : string)
    : result rows :=
  match conn !! "host" with
  | Some (VStr "db1") => Ok [[VInt 5]]
  | Some (VStr "db2") => Ok [[VInt 7]]
  | _ => Err (External "psycopg2.OperationalError")
  end.

Definition count_query : string := "select count(*) from {table} where dt = '{dt}'".

Definition world : env :=
  {| root_folder := "src";
     yml_files := {[ "metrics_description.yml" := table ]};
     sql_files :=
       <["metrics/row_count/metric.sql" := count_query]>
       (<["metrics/late_rows/metric.sql" := count_query]>
       (<["metrics/orphans/metric.sql" := count_query]> ∅));
     modules :=
       <["src.actions.sum_counts.action" := {| run := Some sum_counts |}]>
       (<["src.comparators.greater_than.comparator" :=
            {| run := Some greater_than |}]> ∅);
     pg_fetchall := database;
     push_to_gateway := λ _ _, Ok tt |}.

Definition globals : gmap string pyval :=
  <["threshold" := VInt 10]> (<["dt" := VStr "2024-01-01"]> ∅).

Definition conns : gmap string (gmap string pyval) :=
  <["main" := db1]> (<["replica" := db2]> (<["lost" := db3]> ∅)).

Definition src (conn table : string) : gmap string pyval :=
  <["connection" := VStr conn]> (<["table" := VStr table]> ∅).

Definition two_sources : list (string * gmap string pyval) :=
  [("a", src "main" "orders"); ("b", src "replica" "orders_copy")].

(** The second of three sources is unreachable. *)
Definition outage_sources : list (string * gmap string pyval) :=
  [("a", src "main" "orders"); ("c", src "lost" "orders_old");
   ("b", src "replica" "orders_copy")].

(** The checker [__init__] builds for a metric of [table]. *)
Definition checker_of (name action : string)
    (srcs : list (string * gmap string pyval)) (gateway : option string) : checker :=
  {| metric_name := name;
     prometheus_metric_prefix := "dq";
     prometheus_metric_name := lower name;
     sources := srcs;
     attributes := globals;
     connections := conns;
     prometheus_gateway := gateway;
     action := VStr action;
     comparator := VStr "greater_than";
     prometheus_documentation := VStr "Rows per day" |}.

Definition row_count := checker_of "row_count" "sum_counts".
Definition late_rows := checker_of "Late_Rows" "sum_counts".
Definition orphans := checker_of "orphans" "no_such_action".

Definition gateway : option string := Some "pushgateway:9091".

(** Runs from an empty history. *)
Definition normal_run := check world (row_count two_sources gateway) [].
Definition silent_run := check world (row_count two_sources None) [].
Definition outage_run := check world (row_count outage_sources gateway) [].
Definition late_rows_run := check world (late_rows two_sources gateway) [].
Definition orphans_run := check world (orphans two_sources gateway) [].
Definition orphans_outage_run := check world (orphans outage_sources gateway) [].

End Sample.


(** ** Reading a trace *)

Definition query_results (evs : list event) : list (result rows) :=
  omap (λ ev, match ev with EvQuery _ _ r => Some r | _ => None end) evs.

Definition calls_at (site : call_site) (evs : list event)
    : list (string * list pyval * gmap string pyval * result pyval) :=
  omap (λ ev, match ev with
              | EvCall s name args kwargs r =>
                  match site, s with
                  | ActionRun, ActionRun | ComparatorRun, ComparatorRun =>
                      Some (name, args, kwargs, r)
                  | _, _ => None
                  end
              | _ => None
              end) evs.

Definition pushes (evs : list event) : list push_request :=
  omap (λ ev, match ev with EvPush req _ => Some req | _ => None end) evs.

Definition imports (evs : list event) : list string :=
  omap (λ ev, match ev with EvImport name _ => Some name | _ => None end) evs.

(** The events of one successful turn of the loop. *)
Definition turn_events (q : gmap string pyval * string * rows) : list event :=
  [EvLog (LogQuery q.1.2); EvQuery q.1.1 q.1.2 (Ok q.2)].

(** [source] is configured so that its turn asks [conn_params] the text
    [query]. *)
Definition asks (E : env) (self : checker) (source : string)
    (conn_params : gmap string pyval) (query : string) : Prop :=
  ∃ source_params template connection,
    source_getitem (sources self) source = Ok source_params ∧
    read_sql_file E ("metrics/" +:+ lower (metric_name self) +:+ "/metric.sql")
      = Ok template ∧
    str_format template (dict_or (attributes self) source_params) = Rendered query ∧
    getitem source_params "connection" = Ok connection ∧
    connection_of (connections self) connection = Ok conn_params.

(** The fields of a scanned template, left to right. *)
Definition fields (segs : list segment) : list string :=
  omap (λ s, match s with Field name => Some name | Lit _ => None end) segs.

(** The text a template stands for: each field replaced by the text of
    its value; [None] when a field has no value or no text. *)
Fixpoint substitute (kwargs : gmap string pyval) (segs : list segment) : option string :=
  match segs with
  | [] => Some ""
  | Lit c :: r => String c <$> substitute kwargs r
  | Field name :: r =>
      match kwargs !! name ≫= py_str, substitute kwargs r with
      | Some text, Some rest => Some (text +:+ rest)
      | _, _ => None
      end
  end.

(** Every entry of the metric-definition table has the three fields of a
    metric definition. *)
Definition table_complete (table : gmap string (gmap string pyval)) : Prop :=
  map_Forall (λ _ entry,
    is_Some (entry !! "action") ∧ is_Some (entry !! "comparator") ∧
    is_Some (entry !! "prometheus_documentation")) table.

(** ** Outcomes of the stages of a run *)

Arguments str_format : simpl never.
Arguments action_module : simpl never.
Arguments comparator_module : simpl never.
Arguments evaluate : simpl never.
Arguments query_sources : simpl never.
Arguments query_source : simpl never.
Arguments dict_or : simpl never.

Definition returned {A} (o : outcome A) : Prop := ∃ a, o = Ret a.

Definition outcome_of {A} (r : result A) : outcome A :=
  match r with Ok a => Ret a | Err e => Raise e end.

(** An outcome that is not a value, at another type. *)
Definition propagate {A B} (o : outcome A) : outcome B :=
  match o with Raise e => Raise e | _ => Beyond end.

Definition name_outcome (f : fmt_outcome) : outcome string :=
  match f with
  | Rendered s => Ret s
  | Raised e => Raise e
  | NotModelled => Beyond
  end.

(** Importing module [name] and reading its [run]. *)
Inductive resolved (E : env) (name : string) : outcome pyfun → list event → Prop :=
| resolved_missing :
    modules E !! name = None →
    resolved E name (Raise (ModuleNotFoundError name)) [EvImport name false]
| resolved_no_run m :
    modules E !! name = Some m → run m = None →
    resolved E name (Raise (AttributeError "module has no attribute 'run'"))
      [EvImport name true]
| resolved_run m f :
    modules E !! name = Some m → run m = Some f →
    resolved E name (Ret f) [EvImport name true].

Definition push_events (self : checker) (metric_value : pyval) : list event :=
  if truthy (prometheus_gateway self)
  then [EvPush (gauge_of self metric_value) (Ok tt);
        EvLog (LogPushed (prometheus_metric_name self) metric_value)]
  else [].

Definition comparison_kwargs (self : checker) (metric_value : pyval)
    : gmap string pyval :=
  dict_or (attributes self) (<["metric" := metric_value]> ∅).

(** The comparator stage of [check], once the metric value is known. *)
Inductive compared (E : env) (self : checker) (metric_value : pyval)
    : outcome unit → list event → Prop :=
| compared_unnamed :
    ¬ returned (name_outcome (comparator_module E self)) →
    compared E self metric_value
      (propagate (name_outcome (comparator_module E self))) []
| compared_unresolved name o evs :
    comparator_module E self = Rendered name →
    resolved E name o evs → ¬ returned o →
    compared E self metric_value (propagate o) evs
| compared_called name f evs r :
    comparator_module E self = Rendered name →
    resolved E name (Ret f) evs →
    compared E self metric_value
      (match r with Ok _ => Ret tt | Err e => Raise e end)
      (evs ++ EvCall ComparatorRun name [] (comparison_kwargs self metric_value) r
           :: match r with
              | Ok c => [EvLog (LogComparisonResult c)]
              | Err _ => []
              end).

(** Everything [check] does after the loop, for the row-sets [vs]. *)
Inductive evaluated (E : env) (self : checker) (vs : list rows)
    : outcome unit → list event → Prop :=
| evaluated_unnamed :
    ¬ returned (name_outcome (action_module E self)) →
    evaluated E self vs (propagate (name_outcome (action_module E self))) []
| evaluated_unresolved name o evs :
    action_module E self = Rendered name →
    resolved E name o evs → ¬ returned o →
    evaluated E self vs (propagate o) evs
| evaluated_action_raised name f evs e :
    action_module E self = Rendered name →
    resolved E name (Ret f) evs →
    evaluated E self vs (Raise e)
      (evs ++ [EvCall ActionRun name [row_sets_val vs] ∅ (Err e)])
| evaluated_push_failed name f evs m e :
    action_module E self = Rendered name →
    resolved E name (Ret f) evs →
    truthy (prometheus_gateway self) = true →
    evaluated E self vs (Raise e)
      (evs ++ [EvCall ActionRun name [row_sets_val vs] ∅ (Ok m);
               EvLog (LogMetric m);
               EvPush (gauge_of self m) (Err e)])
| evaluated_compared name f evs m o cevs :
    action_module E self = Rendered name →
    resolved E name (Ret f) evs →
    compared E self m o cevs →
    evaluated E self vs o
      (evs ++ [EvCall ActionRun name [row_sets_val vs] ∅ (Ok m);
               EvLog (LogMetric m)]
           ++ push_events self m ++ cevs).

(** How a loop that did not visit every source ended: before asking the
    database anything in its last turn, or on a query that failed. *)
Definition abort_tail (E : env) (self : checker) (source : string)
    (o : outcome (list rows)) (tail : list event) : Prop :=
  tail = [] ∨ (∃ q, tail = [EvLog (LogQuery q)]) ∨
  (∃ conn q e, asks E self source conn q ∧
     tail = [EvLog (LogQuery q); EvQuery conn q (Err e)] ∧ o = Raise e).

(** What [check] logs before the loop. *)
Definition header (self : checker) : list event :=
  [EvLog (LogMetricName (metric_name self));
   EvLog (LogPrometheusMetricName (prometheus_metric_name self));
   EvLog (LogSources (sources self));
   EvLog (LogAttributes (attributes self))].


(** Events of the header and of the loop: log lines, none of them the
    metric value, and queries. *)
Definition loop_event (ev : event) : Prop :=
  match ev with
  | EvLog (LogMetric _) => False
  | EvLog _ | EvQuery _ _ _ => True
  | _ => False
  end.

(** Module [name] can be imported and its [run] is [f]. *)
Definition resolves (E : env) (name : string) (f : pyfun) : Prop :=
  ∃ m, modules E !! name = Some m ∧ run m = Some f.

(** The exceptions of a failed resolution: the module cannot be imported,
    or it has no [run]. *)
Definition resolution_error (e : exn) : Prop :=
  match e with
  | ModuleNotFoundError _ | AttributeError _ => True
  | _ => False
  end.

(** ** Further readings of a trace *)

(** The error an event records, if the operation it records failed. *)
Definition failure_of (ev : event) : option exn :=
  match ev with
  | EvQuery _ _ (Err e) => Some e
  | EvImport name false => Some (ModuleNotFoundError name)
  | EvCall _ _ _ _ (Err e) => Some e
  | EvPush _ (Err e) => Some e
  | _ => None
  end.

(** No event of the trace records a failure. *)
Definition clean (evs : list event) : Prop := Forall (λ ev, failure_of ev = None) evs.

(** A trace with at most one failure, which is then its last event and
    the outcome of the run. *)
Definition fails_last {A} (o : outcome A) (evs : list event) : Prop :=
  clean evs ∨
  ∃ pre ev e, evs = pre ++ [ev] ∧ clean pre ∧ failure_of ev = Some e ∧ o = Raise e.

(** The queries of a trace: connection parameters, text, result. *)
Definition queries (evs : list event) : list (gmap string pyval * string * result rows) :=
  omap (λ ev, match ev with EvQuery c q r => Some (c, q, r) | _ => None end) evs.


(** ** Literal text in templates *)

(** A text in which each brace is written twice. *)
Fixpoint double_braces (s : string) : string :=
  match s with
  | EmptyString => EmptyString
  | String c r =>
      if (is_brace_open c || is_brace_close c)%bool
      then String c (String c (double_braces r))
      else String c (double_braces r)
  end.

(** A text without braces. *)
Fixpoint brace_free (s : string) : bool :=
  match s with
  | EmptyString => true
  | String c r => negb (is_brace_open c || is_brace_close c) && brace_free r
  end.

(** A text as literal segments. *)
Fixpoint literal (s : string) : list segment :=
  match s with
  | EmptyString => []
  | String c r => Lit c :: literal r
  end.

Arguments comparison_kwargs : simpl never.


(** ** [fetchall], step by step

    [env] takes [fetchall] as one answer of the database. Here are its
    steps: the two nested [with closing(...)] blocks around [execute] and
    [fetchall], over a driver whose every operation may raise. *)
Module Driver.

(** Handles of connections and cursors. *)
Inductive resource : Type :=
| Connection (id : nat)
| Cursor (id : nat).

Inductive db_event : Type :=
| DbConnect (conn_params : gmap string pyval) (res : result nat)
| DbCursor (pg_conn : nat) (res : result nat)
| DbExecute (pg_cursor : nat) (query : string) (res : result unit)
| DbFetchall (pg_cursor : nat) (res : result rows)
| DbCloseCursor (pg_cursor : nat) (res : result unit)
| DbCloseConnection (pg_conn : nat) (res : result unit).

(** [psycopg2] as far as [fetchall] uses it; each operation sees the
    events so far. *)
Record driver : Type := {
  connect : list db_event → gmap string pyval → result nat;
  cursor : list db_event → nat → result nat;
  execute : list db_event → nat → string → result unit;
  cursor_fetchall : list db_event → nat → result rows;
  cursor_close : list db_event → nat → result unit;
  connection_close : list db_event → nat → result unit;
}.

(** [with closing(thing): body], [thing] being at hand: [thing.close()]
    runs however [body] ends, and an error of [close] replaces the
    outcome of [body]. *)
Definition closing {A} (close : list db_event → result unit)
    (closed : result unit → db_event)
    (body : list db_event → result A * list db_event)
    (h : list db_event) : result A * list db_event :=
  let '(r, evs) := body h in
  let rc := close (h ++ evs) in
  (match rc with Ok _ => r | Err e => Err e end, evs ++ [closed rc]).

(** [DataQualityChecker.fetchall] *)
Definition fetchall (D : driver) (conn_params : gmap string pyval) (query : string)
    (h : list db_event) : result rows * list db_event :=
  match connect D h conn_params with
  | Err e => (Err e, [DbConnect conn_params (Err e)])
  | Ok pg_conn =>
      let '(r, evs) :=
        closing (λ h', connection_close D h' pg_conn) (DbCloseConnection pg_conn)
          (λ h1,
             match cursor D h1 pg_conn with
             | Err e => (Err e, [DbCursor pg_conn (Err e)])
             | Ok pg_cursor =>
                 let '(r, evs) :=
                   closing (λ h', cursor_close D h' pg_cursor) (DbCloseCursor pg_cursor)
                     (λ h2,
                        match execute D h2 pg_cursor query with
                        | Err e => (Err e, [DbExecute pg_cursor query (Err e)])
                        | Ok _ =>
                            let records :=
                              cursor_fetchall D
                                (h2 ++ [DbExecute pg_cursor query (Ok tt)]) pg_cursor in
                            (records, [DbExecute pg_cursor query (Ok tt);
                                       DbFetchall pg_cursor records])
                        end)
                     (h1 ++ [DbCursor pg_conn (Ok pg_cursor)]) in
                 (r, DbCursor pg_conn (Ok pg_cursor) :: evs)
             end)
          (h ++ [DbConnect conn_params (Ok pg_conn)]) in
      (r, DbConnect conn_params (Ok pg_conn) :: evs)
  end.

(** What an event acquires, what it releases, what error it records. *)
Definition acquires (ev : db_event) : option resource :=
  match ev with
  | DbConnect _ (Ok c) => Some (Connection c)
  | DbCursor _ (Ok k) => Some (Cursor k)
  | _ => None
  end.

Definition releases (ev : db_event) : option resource :=
  match ev with
  | DbCloseCursor k _ => Some (Cursor k)
  | DbCloseConnection c _ => Some (Connection c)
  | _ => None
  end.

Definition db_failure (ev : db_event) : option exn :=
  match ev with
  | DbConnect _ (Err e) | DbCursor _ (Err e) | DbExecute _ _ (Err e)
  | DbFetchall _ (Err e) | DbCloseCursor _ (Err e) | DbCloseConnection _ (Err e) => Some e
  | _ => None
  end.

Definition executed (ev : db_event) : option string :=
  match ev with DbExecute _ q _ => Some q | _ => None end.

Definition fetched (ev : db_event) : option (result rows) :=
  match ev with DbFetchall _ r => Some r | _ => None end.

End Driver.

(** ** The database behind a run *)

(** Every query event a computation emits carries the answer the
    database of [E] gave at that point of the history. *)
Definition answers_recorded {A} (E : env) (m : M A) : Prop :=
  ∀ h o evs, m h = (o, evs) →
    ∀ pre conn q r post, evs = pre ++ EvQuery conn q r :: post →
      r = pg_fetchall E (h ++ pre) conn q.

(** The database of [E] is the driver [D], which may change with the
    history of the run; each [fetchall] is a conversation of its own. *)
Definition driven_by (E : env) (D : list event → Driver.driver) : Prop :=
  ∀ h conn_params query,
    pg_fetchall E h conn_params query
    = (Driver.fetchall (D h) conn_params query []).1.


(** A driver for the sample deployment: an endpoint that answers accepts
    the connection and serves its rows; the others refuse to connect. *)
Module SampleDb.

Definition driver : Driver.driver :=
  {| Driver.connect := λ _ conn_params,
       match Sample.database [] conn_params "" with
       | Ok _ => Ok 0
       | Err e => Err e
       end;
     Driver.cursor := λ _ _, Ok 0;
     Driver.execute := λ _ _ _, Ok tt;
     Driver.cursor_fetchall := λ h _,
       match h with
       | Driver.DbConnect conn_params _ :: _ => Sample.database [] conn_params ""
       | _ => Err (External "psycopg2.InterfaceError")
       end;
     Driver.cursor_close := λ _ _, Ok tt;
     Driver.connection_close := λ _ _, Ok tt |}.

(** A deployment whose table entry lacks its comparator. *)
Definition incomplete_world : env :=
  {| root_folder := "src";
     yml_files :=
       {[ "metrics_description.yml" :=
            {[ "row_count" := {[ "action" := VStr "sum_counts" ]} ]} ]};
     sql_files := ∅;
     modules := ∅;
     pg_fetchall := Sample.database;
     push_to_gateway := λ _ _, Ok tt |}.

(** A source that names a connection nobody configured. *)
Definition stray_sources : list (string * gmap string pyval) :=
  [("x", Sample.src "nowhere" "orders")].

End SampleDb.

(** ** The plugins behind a run *)

(** Every call event a computation emits names a module of [E], and its
    result is what the [run] of that module gave, at that point of the
    history, for the arguments the event carries. *)
Definition calls_applied {A} (E : env) (m : M A) : Prop :=
  ∀ h o evs, m h = (o, evs) →
    ∀ pre site name args kwargs r post,
      evs = pre ++ EvCall site name args kwargs r :: post →
      ∃ f, resolves E name f ∧ r = f (h ++ pre) args kwargs.

(** An event that records a call of a plugin. *)
Definition is_call (ev : event) : Prop :=
  match ev with EvCall _ _ _ _ _ => True | _ => False end.

(** ** Templates, written out *)

(** The first name of the list the mapping has no value for. *)
Fixpoint first_absent (kwargs : gmap string pyval) (names : list string)
    : option string :=
  match names with
  | [] => None
  | name :: names' =>
      match kwargs !! name with
      | Some _ => first_absent kwargs names'
      | None => Some name
      end
  end.

(** A character that is neither a brace nor one of the marks that start
    a conversion, a format specification or an attribute or index
    access. *)
Definition plain_char (c : ascii) : bool :=
  negb (is_brace_open c || is_brace_close c || Ascii.eqb c "!" || Ascii.eqb c ":"
        || Ascii.eqb c "." || Ascii.eqb c "[")%char.

Fixpoint plain (s : string) : bool :=
  match s with
  | EmptyString => true
  | String c s' => plain_char c && plain s'
  end.

(** A bare argument name: plain characters, and not a number. *)
Definition argument_name (name : string) : bool :=
  plain name && negb (positional name).

(** The text of the template that reads as the segments [segs]: a
    literal brace is written twice, a field between braces. *)
Fixpoint template_text (segs : list segment) : string :=
  match segs with
  | [] => ""
  | Lit c :: segs' =>
      if is_brace_open c || is_brace_close c
      then String c (String c (template_text segs'))
      else String c (template_text segs')
  | Field name :: segs' =>
      String "{" (name +:+ String "}" (template_text segs'))
  end.

(** * Properties *)

Section Monad.
Context {A B : Type}.

Lemma bind_inv (m : M A) (k : A → M B) h o evs :
  bind m k h = (o, evs) →
  (∃ a e1 e2, m h = (Ret a, e1) ∧ k a (h ++ e1) = (o, e2) ∧ evs = e1 ++ e2)
  ∨ (∃ e, m h = (Raise e, evs) ∧ o = Raise e)
  ∨ (m h = (Beyond, evs) ∧ o = Beyond).
Proof.
  unfold bind. destruct (m h) as [[a|e|] e1].
  - destruct (k a (h ++ e1)) as [o' e2] eqn:Hk. intros [= <- <-].
    left. by exists a, e1, e2.
  - intros [= <- <-]. right. left. by exists e.
  - intros [= <- <-]. right. by right.
Qed.
End Monad.

Section Primitives.
Context {A : Type}.

Lemma lift_inv (r : result A) h o evs :
  lift r h = (o, evs) → o = outcome_of r ∧ evs = [].
Proof. unfold lift. intros [= <- <-]. by destruct r. Qed.

Lemma lift_fmt_inv f h o evs :
  lift_fmt f h = (o, evs) → o = name_outcome f ∧ evs = [].
Proof. unfold lift_fmt. intros [= <- <-]. by destruct f. Qed.

Lemma info_inv r h o evs : info r h = (o, evs) → o = Ret tt ∧ evs = [EvLog r].
Proof. unfold info, emit. by intros [= <- <-]. Qed.

Lemma call_inv site name f args kwargs h o evs :
  call site name f args kwargs h = (o, evs) →
  ∃ r, o = outcome_of r ∧ evs = [EvCall site name args kwargs r].
Proof. unfold call. intros [= <- <-]. by eexists. Qed.
End Primitives.

Ltac bind_step H Hm :=
  apply bind_inv in H as [(? & ? & ? & Hm & H & ->)|[(? & Hm & ->)|[Hm ->]]].

Lemma import_module_inv E name h o evs :
  import_module E name h = (o, evs) →
  (∃ m, modules E !! name = Some m ∧ o = Ret m ∧ evs = [EvImport name true])
  ∨ (modules E !! name = None ∧ o = Raise (ModuleNotFoundError name) ∧
     evs = [EvImport name false]).
Proof.
  unfold import_module. destruct (modules E !! name) as [m|]; intros [= <- <-];
    [left; by exists m | by right].
Qed.

Lemma resolve_inv {B} E name (k : pyfun → M B) h o evs :
  bind (import_module E name) (λ m, bind (getattr_run m) k) h = (o, evs) →
  (∃ f ievs h' kevs, resolved E name (Ret f) ievs ∧ k f h' = (o, kevs) ∧
     evs = ievs ++ kevs)
  ∨ (∃ o', resolved E name o' evs ∧ ¬ returned o' ∧ o = propagate o').
Proof.
  intros H. bind_step H Hm;
    apply import_module_inv in Hm as [(m & Hmod & ? & ?)|(Hmod & ? & ?)];
    simplify_eq.
  - unfold getattr_run in H.
    bind_step H Hg; apply lift_inv in Hg as [Ho ->];
      destruct (run m) as [f|] eqn:Hrun; simplify_eq/=.
    + left. eexists f, _, _, _. split; [by eapply resolved_run|]. split; [exact H|done].
    + right. eexists. split; [by eapply resolved_no_run|]. split; [by intros [? ?]|done].
  - right. eexists. split; [by apply resolved_missing|]. split; [by intros [? ?]|done].
Qed.

Lemma compare_inv E self m h o evs :
  (bind (lift_fmt (comparator_module E self)) (λ comparator_name,
     bind (import_module E comparator_name) (λ comparator_mod,
       bind (getattr_run comparator_mod) (λ comparator_run,
         bind (call ComparatorRun comparator_name comparator_run []
                 (comparison_kwargs self m))
              (λ comparison_result, info (LogComparisonResult comparison_result))))))
    h = (o, evs) →
  compared E self m o evs.
Proof.
  intros H. bind_step H Hn; apply lift_fmt_inv in Hn as [Ho ->].
  - destruct (comparator_module E self) as [name| |] eqn:Hname; simplify_eq/=.
    apply resolve_inv in H as
      [(f & ievs & h' & kevs & Hres & H & ->)|(o' & Hres & Hnot & ->)].
    + bind_step H Hc; apply call_inv in Hc as (r & Ho & ->).
      * destruct r as [c|]; simplify_eq/=. apply info_inv in H as [-> ->].
        by apply (compared_called E self m name f ievs (Ok c)).
      * destruct r as [c|e]; simplify_eq/=.
        by apply (compared_called E self m name f ievs (Err e)).
      * by destruct r.
    + by eapply compared_unresolved.
  - assert (Hnot : ¬ returned (name_outcome (comparator_module E self))).
    { rewrite <- Ho. by intros [? ?]. }
    pose proof (compared_unnamed E self m Hnot) as Hc. by rewrite <- Ho in Hc.
  - assert (Hnot : ¬ returned (name_outcome (comparator_module E self))).
    { rewrite <- Ho. by intros [? ?]. }
    pose proof (compared_unnamed E self m Hnot) as Hc. by rewrite <- Ho in Hc.
Qed.

Lemma send_metric_inv E self m h o evs :
  send_metric_to_prometheus E self m h = (o, evs) →
  (o = Ret tt ∧ evs = [EvPush (gauge_of self m) (Ok tt);
                       EvLog (LogPushed (prometheus_metric_name self) m)])
  ∨ (∃ e, o = Raise e ∧ evs = [EvPush (gauge_of self m) (Err e)]).
Proof.
  unfold send_metric_to_prometheus, bind, info, emit.
  destruct (push_to_gateway E h (gauge_of self m)) as [[]|e]; intros [= <- <-].
  - by left.
  - right. by exists e.
Qed.

Lemma unnamed_not_returned f (o : outcome string) :
  o = name_outcome f → ¬ returned o → ∀ s, f ≠ Rendered s.
Proof. intros -> Hn s ->. apply Hn. by exists s. Qed.

Lemma evaluate_inv E self vs h o evs :
  evaluate E self vs h = (o, evs) → evaluated E self vs o evs.
Proof.
  unfold evaluate. intros H.
  apply bind_inv in H as [(an & e1 & e2 & Hn & H & ->)|[(e & Hn & ->)|[Hn ->]]];
    apply lift_fmt_inv in Hn as [Ho ->].
  - destruct (action_module E self) as [name| |] eqn:Hname; simplify_eq/=.
    apply resolve_inv in H as
      [(f & ievs & h' & kevs & Hres & H & ->)|(o' & Hres & Hnot & ->)];
      [|by eapply evaluated_unresolved].
    apply bind_inv in H as [(m & c1 & c2 & Hc & H & ->)|[(e & Hc & ->)|[Hc ->]]];
      apply call_inv in Hc as (r & Hr & ->); destruct r as [m'|e']; simplify_eq/=;
      [|by eapply evaluated_action_raised].
    apply bind_inv in H as [([] & l1 & l2 & Hl & H & ->)|[(e & Hl & ->)|[Hl ->]]];
      apply info_inv in Hl as [? ->]; simplify_eq.
    apply bind_inv in H as [([] & p1 & p2 & Hp & H & ->)|[(e & Hp & ->)|[Hp ->]]].
    + apply compare_inv in H.
      assert (p1 = push_events self m') as ->.
      { unfold push_events. destruct (truthy (prometheus_gateway self)).
        - by apply send_metric_inv in Hp as [[_ ->]|(e & ? & _)].
        - unfold ret in Hp. by simplify_eq. }
      by eapply (evaluated_compared E self vs name f ievs m').
    + destruct (truthy (prometheus_gateway self)) eqn:Hg; [|by unfold ret in Hp].
      apply send_metric_inv in Hp as [[? _]|(e0 & ? & ->)]; simplify_eq.
      by eapply (evaluated_push_failed E self vs name f ievs m').
    + destruct (truthy (prometheus_gateway self)) eqn:Hg; [|by unfold ret in Hp].
      by apply send_metric_inv in Hp as [[? _]|(e0 & ? & ->)].
  - assert (Hnot : ¬ returned (name_outcome (action_module E self))).
    { rewrite <- Ho. by intros [? ?]. }
    pose proof (evaluated_unnamed E self vs Hnot) as Hc. by rewrite <- Ho in Hc.
  - assert (Hnot : ¬ returned (name_outcome (action_module E self))).
    { rewrite <- Ho. by intros [? ?]. }
    pose proof (evaluated_unnamed E self vs Hnot) as Hc. by rewrite <- Ho in Hc.
Qed.

Lemma query_source_inv E self source h o evs :
  query_source E self source h = (o, evs) →
  (∃ conn q r, asks E self source conn q ∧
     evs = [EvLog (LogQuery q); EvQuery conn q r] ∧ o = outcome_of r)
  ∨ (¬ returned o ∧ (evs = [] ∨ ∃ q, evs = [EvLog (LogQuery q)])).
Proof.
  unfold query_source, bind, lift, lift_fmt, info, emit, fetchall, returned.
  intros H. repeat case_match; simplify_eq/=.
  all: try (right; split; [by intros [? ?] | eauto]; fail).
  all: left; eexists _, _, _; (split; [by eexists _, _, _|]); split; try done.
  all: by match goal with H : pg_fetchall _ _ _ _ = _ |- _ => rewrite H end.
Qed.

Lemma query_sources_shape E self keys : ∀ acc h o evs,
  query_sources E self keys acc h = (o, evs) →
  ∃ (turns : list (gmap string pyval * string * rows)) (tail : list event),
    evs = (flat_map turn_events turns ++ tail) ∧
    Forall2 (λ source t, asks E self source t.1.1 t.1.2)
            (take (length turns) keys) turns ∧
    match o with
    | Ret vs => tail = [] ∧ vs = (acc ++ turns.*2) ∧ length turns = length keys
    | _ => ∃ source, keys !! length turns = Some source ∧
                     abort_tail E self source o tail
    end.
Proof.
  induction keys as [|source keys IH]; intros acc h o evs; simpl.
  - unfold ret. intros [= <- <-]. exists [], []. simpl. repeat split; [constructor | by rewrite app_nil_r].
  - intros H. apply bind_inv in H as [(r & e1 & e2 & Hs & Hk & ->)|[(e & Hs & ->)|[Hs ->]]].
    + apply query_source_inv in Hs as [(conn & q & res & Hasks & -> & Ho)|[Hn _]];
        [|by destruct Hn; eexists].
      destruct res as [r'|]; simplify_eq/=.
      apply IH in Hk as (turns & tail & -> & HF & Ho).
      exists ((conn, q, r') :: turns), tail. simpl. split; [done|].
      split; [by constructor|].
      destruct o as [vs| |].
      * destruct Ho as (-> & -> & ->). by rewrite <- app_assoc.
      * done.
      * done.
    + exists [], evs. simpl. split; [done|]. split; [constructor|].
      exists source. split; [done|].
      apply query_source_inv in Hs as [(conn & q & res & Hasks & -> & Ho)|[_ Hev]].
      * destruct res; simplify_eq/=. right. right. by eexists _, _, _.
      * destruct Hev as [->|[q ->]]; [by left | right; left; eauto].
    + exists [], evs. simpl. split; [done|]. split; [constructor|].
      exists source. split; [done|].
      apply query_source_inv in Hs as [(conn & q & res & Hasks & -> & Ho)|[_ Hev]].
      * by destruct res.
      * destruct Hev as [->|[q ->]]; [by left | right; left; eauto].
Qed.

Lemma check_inv E self h o evs :
  check E self h = (o, evs) →
  ∃ h1 lo le,
    query_sources E self (sources self).*1 [] h1 = (lo, le) ∧
    match lo with
    | Ret vs => ∃ h2 ee, evaluate E self vs h2 = (o, ee) ∧ evs = header self ++ le ++ ee
    | Raise e => o = Raise e ∧ evs = header self ++ le
    | Beyond => o = Beyond ∧ evs = header self ++ le
    end.
Proof.
  unfold check. intros H.
  repeat (apply bind_inv in H as [(? & ? & ? & Hi & H & ->)|[(? & Hi & ->)|[Hi ->]]];
          [unfold info, emit in Hi; simplify_eq/= | by unfold info, emit in Hi..]).
  apply bind_inv in H as [(vs & e1 & e2 & Hl & H & ->)|[(e & Hl & ->)|[Hl ->]]].
  - eexists _, _, _. split; [exact Hl|]. simpl. by eexists _, _.
  - eexists _, _, _. split; [exact Hl|]. done.
  - eexists _, _, _. split; [exact Hl|]. done.
Qed.

(** ** Trace projections *)

Section Projections.
Implicit Types evs : list event.

Lemma query_results_app evs1 evs2 :
  query_results (evs1 ++ evs2) = query_results evs1 ++ query_results evs2.
Proof. apply omap_app. Qed.

Lemma calls_at_app site evs1 evs2 :
  calls_at site (evs1 ++ evs2) = calls_at site evs1 ++ calls_at site evs2.
Proof. apply omap_app. Qed.

Lemma pushes_app evs1 evs2 : pushes (evs1 ++ evs2) = pushes evs1 ++ pushes evs2.
Proof. apply omap_app. Qed.

Lemma imports_app evs1 evs2 : imports (evs1 ++ evs2) = imports evs1 ++ imports evs2.
Proof. apply omap_app. Qed.

Lemma loop_events_quiet evs :
  Forall loop_event evs →
  pushes evs = [] ∧ imports evs = [] ∧ ∀ site, calls_at site evs = [].
Proof.
  induction 1 as [|ev evs Hev _ (IHp & IHi & IHc)]; [done|].
  destruct ev; try done; simpl; repeat split; try done; intros []; apply IHc.
Qed.

Lemma header_loop_events self : Forall loop_event (header self).
Proof. by repeat constructor. Qed.

Lemma turns_loop_events turns : Forall loop_event (flat_map turn_events turns).
Proof. induction turns; [constructor|]. simpl. by repeat constructor. Qed.

Lemma query_results_turns turns :
  query_results (flat_map turn_events turns) = Ok <$> turns.*2.
Proof. induction turns as [|t turns IH]; [done|]. simpl. f_equal. apply IH. Qed.
End Projections.

Lemma abort_tail_loop_events E self source o tail :
  abort_tail E self source o tail → Forall loop_event tail.
Proof.
  intros [->|[[q ->]|(conn & q & e & _ & -> & _)]]; by repeat constructor.
Qed.

Lemma query_sources_loop_events E self keys acc h o evs :
  query_sources E self keys acc h = (o, evs) → Forall loop_event evs.
Proof.
  intros (turns & tail & -> & _ & Ho)%query_sources_shape.
  apply Forall_app. split; [apply turns_loop_events|].
  destruct o as [vs|e|].
  - destruct Ho as (-> & _). constructor.
  - destruct Ho as (source & _ & Ht). by eapply abort_tail_loop_events.
  - destruct Ho as (source & _ & Ht). by eapply abort_tail_loop_events.
Qed.

Lemma resolved_events E name o evs :
  resolved E name o evs → ∃ found, evs = [EvImport name found].
Proof. destruct 1; by eexists. Qed.

Lemma compared_pushes E self m o evs : compared E self m o evs → pushes evs = [].
Proof.
  destruct 1 as [|name o evs _ (b & ->)%resolved_events _
                 |name f evs r _ (b & ->)%resolved_events]; try done.
  by destruct r.
Qed.

Lemma pushes_push_events self m :
  pushes (push_events self m)
  = if truthy (prometheus_gateway self) then [gauge_of self m] else [].
Proof. unfold push_events. by destruct (truthy _). Qed.

Lemma evaluated_pushes E self vs o evs :
  evaluated E self vs o evs →
  pushes evs = [] ∨
  (truthy (prometheus_gateway self) = true ∧ ∃ m, pushes evs = [gauge_of self m]).
Proof.
  destruct 1 as [|name o evs _ (b & ->)%resolved_events _
                 |name f evs e _ (b & ->)%resolved_events
                 |name f evs m e _ (b & ->)%resolved_events Hg
                 |name f evs m o cevs _ (b & ->)%resolved_events Hc].
  - by left.
  - by left.
  - by left.
  - right. split; [done|]. by exists m.
  - rewrite !pushes_app, pushes_push_events, (compared_pushes _ _ _ _ _ Hc).
    destruct (truthy (prometheus_gateway self)); [right|left]; eauto.
Qed.

Lemma check_pushes E self h o evs :
  check E self h = (o, evs) →
  pushes evs = [] ∨
  (truthy (prometheus_gateway self) = true ∧ ∃ m, pushes evs = [gauge_of self m]).
Proof.
  intros (h1 & lo & le & Hl & Ho)%check_inv.
  pose proof (loop_events_quiet _ (header_loop_events self)) as (Hh & _).
  pose proof (loop_events_quiet _ (query_sources_loop_events _ _ _ _ _ _ _ Hl)) as (Hq & _).
  destruct lo as [vs|e|].
  - destruct Ho as (h2 & ee & He%evaluate_inv%evaluated_pushes & ->).
    by rewrite !pushes_app, Hh, Hq.
  - destruct Ho as (_ & ->). left. by rewrite pushes_app, Hh, Hq.
  - destruct Ho as (_ & ->). left. by rewrite pushes_app, Hh, Hq.
Qed.

Lemma truthy_true o : truthy o = true → ∃ g, o = Some g ∧ g ≠ "".
Proof.
  destruct o as [g|]; [|done]. simpl. intros Hn. exists g. split; [done|].
  intros ->. done.
Qed.


(** ** Rendering templates *)

Section Format.
Implicit Types (kwargs : gmap string pyval) (segs : list segment).

Lemma append_assoc (a b c : string) : (a +:+ b) +:+ c = a +:+ b +:+ c.
Proof.
  induction a as [|x a IH]; [done|].
  change (String x ((a +:+ b) +:+ c) = String x (a +:+ b +:+ c)). by f_equal.
Qed.

Lemma append_nil_r (a : string) : a +:+ "" = a.
Proof.
  induction a as [|x a IH]; [done|].
  change (String x (a +:+ "") = String x a). by f_equal.
Qed.

Lemma render_substitute kwargs segs : ∀ out text,
  Forall (λ n, positional n = false) (fields segs) →
  substitute kwargs segs = Some text →
  render kwargs segs ScanDone out = Rendered (out +:+ text).
Proof.
  induction segs as [|[c|name] segs IH]; intros out text Hnamed Hsub; simpl in *.
  - injection Hsub as <-. by rewrite append_nil_r.
  - destruct (substitute kwargs segs) as [rest|] eqn:Hrest; simplify_eq/=.
    rewrite (IH _ rest) by done. by rewrite append_assoc.
  - apply Forall_cons in Hnamed as [-> Hnamed].
    destruct (kwargs !! name) as [v|]; [|done]. simpl in Hsub.
    destruct (py_str v) as [t|]; [|done].
    destruct (substitute kwargs segs) as [rest|] eqn:Hrest; simplify_eq/=.
    rewrite (IH _ rest) by done. by rewrite append_assoc.
Qed.

Lemma substitute_defined kwargs segs :
  map_Forall (λ _ v, is_Some (py_str v)) kwargs →
  (∀ n, n ∈ fields segs → is_Some (kwargs !! n)) →
  is_Some (substitute kwargs segs).
Proof.
  intros Htext. induction segs as [|[c|name] segs IH]; intros Hall; simpl in *.
  - by eexists.
  - destruct IH as [rest ->]; [done|]. by eexists.
  - destruct (Hall name) as [v Hv]; [by left|]. rewrite Hv. simpl.
    destruct (Htext _ _ Hv) as [t ->].
    destruct IH as [rest ->]; [|by eexists].
    intros n Hn. apply Hall. by right.
Qed.

Lemma render_missing kwargs segs fin : ∀ out,
  Forall (λ n, positional n = false) (fields segs) →
  map_Forall (λ _ v, is_Some (py_str v)) kwargs →
  (∃ n, n ∈ fields segs ∧ kwargs !! n = None) →
  ∃ n, n ∈ fields segs ∧ kwargs !! n = None ∧
       render kwargs segs fin out = Raised (KeyError (VStr n)).
Proof.
  intros out Hnamed Htext. revert out Hnamed.
  induction segs as [|[c|name] segs IH]; intros out Hnamed (n & Hn & Hnone); simpl in *.
  - by apply elem_of_nil in Hn.
  - apply IH; [done|]. by exists n.
  - apply Forall_cons in Hnamed as [-> Hnamed].
    destruct (kwargs !! name) as [v|] eqn:Hv.
    + destruct (Htext _ _ Hv) as [t ->].
      apply elem_of_cons in Hn as [->|Hn]; [congruence|].
      destruct (IH (out +:+ t) Hnamed) as (n' & Hn' & Hnone' & ->); [by exists n|].
      exists n'. split; [by right|done].
    + exists name. split; [by left|done].
Qed.

Lemma render_rendered kwargs segs fin : ∀ out text,
  render kwargs segs fin out = Rendered text →
  ∀ n, n ∈ fields segs → is_Some (kwargs !! n).
Proof.
  induction segs as [|[c|name] segs IH]; intros out text Hr n Hn; simpl in *.
  - by apply elem_of_nil in Hn.
  - by eapply IH.
  - destruct (positional name); [by destruct (index_in_range name)|].
    destruct (kwargs !! name) as [v|] eqn:Hv; [|done].
    destruct (py_str v); [|done].
    apply elem_of_cons in Hn as [->|Hn]; [by rewrite Hv|]. by eapply IH.
Qed.
End Format.

Lemma scan_argument_name name : ∀ acc rest,
  plain name = true →
  scan (Some acc) (name +:+ String "}" rest)
  = (Field (rev_string acc name) :: (scan None rest).1, (scan None rest).2).
Proof.
  induction name as [|c name IH]; intros acc rest Hplain.
  - change (scan (Some acc) (String "}" rest)
            = (Field (rev_string acc "") :: (scan None rest).1, (scan None rest).2)).
    cbn [scan]. change (is_brace_close "}") with true. cbn iota.
    by destruct (scan None rest).
  - cbn [plain] in Hplain. apply andb_prop in Hplain as [Hc Hplain].
    change (scan (Some acc) (String c (name +:+ String "}" rest))
            = (Field (rev_string (c :: acc) name) :: (scan None rest).1,
               (scan None rest).2)).
    rewrite <- (IH (c :: acc) rest Hplain).
    unfold plain_char in Hc. apply negb_true_iff in Hc.
    repeat (apply orb_false_elim in Hc as [Hc ?]).
    cbn [scan]. rewrite H3, Hc.
    replace (Ascii.eqb c "!" || Ascii.eqb c ":" || Ascii.eqb c "." || Ascii.eqb c "[")%bool
      with false; [done|].
    by rewrite H2, H1, H0, H.
Qed.

Lemma plain_head name rest :
  plain name = true →
  ∃ c r, name +:+ String "}" rest = String c r ∧ is_brace_open c = false.
Proof.
  destruct name as [|c name]; intros Hplain.
  - by exists "}"%char, rest.
  - exists c, (name +:+ String "}" rest). split; [done|].
    cbn [plain] in Hplain. apply andb_prop in Hplain as [Hc _].
    unfold plain_char in Hc. apply negb_true_iff in Hc.
    by repeat (apply orb_false_elim in Hc as [Hc ?]).
Qed.

Lemma scan_template_text segs :
  Forall (λ n, plain n = true) (fields segs) →
  scan None (template_text segs) = (segs, ScanDone).
Proof.
  induction segs as [|[c|name] segs IH]; intros Hplain.
  - done.
  - specialize (IH Hplain). cbn [template_text].
    destruct (is_brace_open c) eqn:Ho; cbn [orb].
    + cbn [scan]. rewrite Ho. cbn iota. by rewrite IH.
    + destruct (is_brace_close c) eqn:Hc.
      * cbn [scan]. rewrite Ho, Hc. cbn iota. by rewrite IH.
      * cbn [scan]. rewrite Ho, Hc. by rewrite IH.
  - change (fields (Field name :: segs)) with (name :: fields segs) in Hplain.
    apply Forall_cons in Hplain as [Hname Hplain]. specialize (IH Hplain).
    cbn [template_text].
    destruct (plain_head name (template_text segs) Hname) as (c & r & Heq & Hc).
    cbn [scan]. change (is_brace_open "{") with true. cbn iota.
    rewrite Heq, Hc. rewrite <- Heq.
    rewrite scan_argument_name by done. by rewrite IH.
Qed.

Lemma first_absent_spec kwargs names :
  match first_absent kwargs names with
  | Some n => ∃ pre post, names = pre ++ n :: post ∧ kwargs !! n = None ∧
                          ∀ k, k ∈ pre → is_Some (kwargs !! k)
  | None => ∀ k, k ∈ names → is_Some (kwargs !! k)
  end.
Proof.
  induction names as [|name names IH]; simpl.
  - intros k Hk. by apply elem_of_nil in Hk.
  - destruct (kwargs !! name) as [v|] eqn:Hv.
    + destruct (first_absent kwargs names) as [n|].
      * destruct IH as (pre & post & -> & Hn & Hpre).
        exists (name :: pre), post. split; [done|]. split; [done|].
        intros k [->|Hk]%elem_of_cons; [by rewrite Hv|by apply Hpre].
      * intros k [->|Hk]%elem_of_cons; [by rewrite Hv|by apply IH].
    + exists [], names. split; [done|]. split; [done|].
      intros k Hk. by apply elem_of_nil in Hk.
Qed.

Lemma render_first_absent kwargs segs fin n : ∀ out,
  Forall (λ n, positional n = false) (fields segs) →
  map_Forall (λ _ v, is_Some (py_str v)) kwargs →
  first_absent kwargs (fields segs) = Some n →
  render kwargs segs fin out = Raised (KeyError (VStr n)).
Proof.
  intros out Hnamed Htext. revert out Hnamed.
  induction segs as [|[c|name] segs IH]; intros out Hnamed Hfirst.
  - done.
  - by apply IH.
  - change (fields (Field name :: segs)) with (name :: fields segs) in *.
    apply Forall_cons in Hnamed as [Hname Hnamed].
    cbn [first_absent] in Hfirst. cbn [render]. rewrite Hname.
    destruct (kwargs !! name) as [v|] eqn:Hv.
    + destruct (Htext _ _ Hv) as [t ->]. by apply IH.
    + by injection Hfirst as ->.
Qed.

Lemma argument_names_named segs :
  Forall (λ n, argument_name n = true) (fields segs) →
  Forall (λ n, plain n = true) (fields segs) ∧
  Forall (λ n, positional n = false) (fields segs).
Proof.
  intros H. split; eapply Forall_impl; try exact H; simpl; intros n Hn;
    unfold argument_name in Hn; apply andb_prop in Hn as [? ?%negb_true_iff]; done.
Qed.

Lemma format_cases template kwargs segs :
  scan None template = (segs, ScanDone) →
  Forall (λ n, positional n = false) (fields segs) →
  map_Forall (λ _ v, is_Some (py_str v)) kwargs →
  ((∀ n, n ∈ fields segs → is_Some (kwargs !! n)) →
   ∃ text, substitute kwargs segs = Some text ∧
           str_format template kwargs = Rendered text) ∧
  ((∃ n, n ∈ fields segs ∧ kwargs !! n = None) →
   ∃ pre n post, fields segs = pre ++ n :: post ∧
     (∀ k, k ∈ pre → is_Some (kwargs !! k)) ∧ kwargs !! n = None ∧
     str_format template kwargs = Raised (KeyError (VStr n))).
Proof.
  intros Hscan Hnamed Htext. unfold str_format. rewrite Hscan. split.
  - intros Hall. destruct (substitute_defined kwargs segs Htext Hall) as [text Hsub].
    exists text. split; [done|]. by rewrite (render_substitute _ _ "" text).
  - intros (n & Hn & Hnone).
    pose proof (first_absent_spec kwargs (fields segs)) as Hspec.
    destruct (first_absent kwargs (fields segs)) as [m|] eqn:Hfirst.
    + destruct Hspec as (pre & post & Hsplit & Hm & Hpre).
      exists pre, m, post. repeat split; try done.
      by apply render_first_absent.
    + destruct (Hspec n Hn) as [v Hv]. congruence.
Qed.

(** C4 (as the code has it). For a template that is a well-formed
    format string whose fields are bare argument names, and attribute
    values that have a text (the scalars, an integer of at most 4300
    digits): when every field has a value the rendering is the template
    with each field replaced by the text of its value (the string itself
    for a string); when a field has none the rendering raises [KeyError]
    for the first such field of the template, every field before it
    having a value. The same holds of a template given by its text: plain
    characters, each literal brace written twice, each field a bare
    argument name between braces. For any template at all, a field
    without a value never yields a rendered text. *)
Theorem format_substitutes_or_raises template kwargs :
  (∀ segs,
     scan None template = (segs, ScanDone) →
     Forall (λ n, positional n = false) (fields segs) →
     map_Forall (λ _ v, is_Some (py_str v)) kwargs →
     ((∀ n, n ∈ fields segs → is_Some (kwargs !! n)) →
      ∃ text, substitute kwargs segs = Some text ∧
              str_format template kwargs = Rendered text) ∧
     ((∃ n, n ∈ fields segs ∧ kwargs !! n = None) →
      ∃ pre n post, fields segs = pre ++ n :: post ∧
        (∀ k, k ∈ pre → is_Some (kwargs !! k)) ∧ kwargs !! n = None ∧
        str_format template kwargs = Raised (KeyError (VStr n)))) ∧
  (∀ segs,
     template = template_text segs →
     Forall (λ n, argument_name n = true) (fields segs) →
     map_Forall (λ _ v, is_Some (py_str v)) kwargs →
     ((∀ n, n ∈ fields segs → is_Some (kwargs !! n)) →
      ∃ text, substitute kwargs segs = Some text ∧
              str_format template kwargs = Rendered text) ∧
     ((∃ n, n ∈ fields segs ∧ kwargs !! n = None) →
      ∃ pre n post, fields segs = pre ++ n :: post ∧
        (∀ k, k ∈ pre → is_Some (kwargs !! k)) ∧ kwargs !! n = None ∧
        str_format template kwargs = Raised (KeyError (VStr n)))) ∧
  (∀ segs fin n,
     scan None template = (segs, fin) → n ∈ fields segs → kwargs !! n = None →
     ∀ text, str_format template kwargs ≠ Rendered text).
Proof.
  split; [|split].
  - intros segs. apply format_cases.
  - intros segs -> [Hplain Hnamed]%argument_names_named.
    apply format_cases; [by apply scan_template_text|done].
  - intros segs fin n Hscan Hn Hnone text. unfold str_format. rewrite Hscan.
    intros Hr. destruct (render_rendered _ _ _ _ _ Hr n Hn) as [v Hv]. congruence.
Qed.

(** ** The queries of a run *)

Lemma elem_of_query_results evs conn q r :
  EvQuery conn q r ∈ evs → r ∈ query_results evs.
Proof.
  intros H. unfold query_results. apply list_elem_of_omap.
  by exists (EvQuery conn q r).
Qed.

Lemma compared_query_results E self m o evs :
  compared E self m o evs → query_results evs = [].
Proof.
  destruct 1 as [|name o evs _ (b & ->)%resolved_events _
                 |name f evs r _ (b & ->)%resolved_events]; try done.
  by destruct r.
Qed.

Lemma query_results_push_events self m : query_results (push_events self m) = [].
Proof. unfold push_events. by destruct (truthy _). Qed.

Lemma evaluated_query_results E self vs o evs :
  evaluated E self vs o evs → query_results evs = [].
Proof.
  destruct 1 as [|name o evs _ (b & ->)%resolved_events _
                 |name f evs e _ (b & ->)%resolved_events
                 |name f evs m e _ (b & ->)%resolved_events Hg
                 |name f evs m o cevs _ (b & ->)%resolved_events Hc]; try done.
  by rewrite !query_results_app, query_results_push_events,
    (compared_query_results _ _ _ _ _ Hc).
Qed.

Lemma header_query_results self : query_results (header self) = [].
Proof. done. Qed.

Lemma dict_or_lookup {A} (a b : gmap string A) k :
  dict_or a b !! k = match b !! k with Some v => Some v | None => a !! k end.
Proof.
  unfold dict_or. destruct (b !! k) as [v|] eqn:Hb.
  - by apply lookup_union_Some_l.
  - by rewrite lookup_union_r.
Qed.

Lemma source_getitem_elem srcs source params :
  source_getitem srcs source = Ok params → (source, params) ∈ srcs.
Proof.
  unfold source_getitem.
  destruct (list_find _ srcs) as [[i [k p]]|] eqn:Hfind; [|done].
  intros [= <-]. apply list_find_Some in Hfind as (Hi & Hk & _). simpl in Hk. subst k.
  by eapply list_elem_of_lookup_2.
Qed.

Lemma asks_source E self source conn q :
  asks E self source conn q →
  ∃ source_params template,
    (source, source_params) ∈ sources self ∧
    read_sql_file E ("metrics/" +:+ lower (metric_name self) +:+ "/metric.sql")
      = Ok template ∧
    str_format template (dict_or (attributes self) source_params) = Rendered q.
Proof.
  intros (params & template & c & Hget%source_getitem_elem & Hread & Hfmt & _).
  by exists params, template.
Qed.

Lemma elem_of_turns turns ev :
  ev ∈ flat_map turn_events turns →
  ∃ t, t ∈ turns ∧ (ev = EvLog (LogQuery t.1.2) ∨ ev = EvQuery t.1.1 t.1.2 (Ok t.2)).
Proof.
  induction turns as [|t turns IH]; simpl; [by intros ?%elem_of_nil|].
  intros [->|[->|Hin]%elem_of_cons]%elem_of_cons.
  - exists t. split; [by left|by left].
  - exists t. split; [by left|by right].
  - destruct (IH Hin) as (t' & Ht' & Hev). exists t'. split; [by right|done].
Qed.

(** Every query event of a run was asked for by one of the sources. *)
Lemma check_query_asked E self h o evs conn q r :
  check E self h = (o, evs) → EvQuery conn q r ∈ evs →
  ∃ source, asks E self source conn q.
Proof.
  intros (h1 & lo & le & Hl & Ho)%check_inv Hin.
  apply query_sources_shape in Hl as (turns & tail & -> & HF & Hlo).
  assert (Hloop : EvQuery conn q r ∈ flat_map turn_events turns ++ tail →
                  (∀ source o', abort_tail E self source o' tail →
                     EvQuery conn q r ∈ tail → ∃ source, asks E self source conn q) →
                  ∃ source, asks E self source conn q).
  { intros [Hturn|Htl]%elem_of_app Htail.
    - apply elem_of_turns in Hturn as (t & Ht & [?|Hev]); [done|].
      injection Hev as -> -> ->.
      apply list_elem_of_lookup in Ht as (i & Hi).
      destruct (Forall2_lookup_r _ _ _ _ _ HF Hi) as (source & _ & Hasks).
      by exists source.
    - destruct lo as [vs|e|].
      + destruct Hlo as (-> & _). by apply elem_of_nil in Htl.
      + destruct Hlo as (source & _ & Ht). by eapply Htail.
      + destruct Hlo as (source & _ & Ht). by eapply Htail. }
  assert (Htail : ∀ source o', abort_tail E self source o' tail →
            EvQuery conn q r ∈ tail → ∃ source, asks E self source conn q).
  { intros source o' [->|[[q' ->]|(conn' & q' & e' & Hasks & -> & _)]] Htl.
    - by apply elem_of_nil in Htl.
    - by apply list_elem_of_singleton in Htl.
    - apply elem_of_cons in Htl as [?|Htl]; [done|].
      apply list_elem_of_singleton in Htl. simplify_eq. by exists source. }
  assert (Hhead : EvQuery conn q r ∉ header self).
  { intros Hh%elem_of_query_results. by apply elem_of_nil in Hh. }
  destruct lo as [vs|e|].
  - destruct Ho as (h2 & ee & He%evaluate_inv & ->).
    apply elem_of_app in Hin as [?|Hin]; [done|].
    apply elem_of_app in Hin as [Hin|Hin]; [by apply Hloop|].
    apply elem_of_query_results in Hin.
    rewrite (evaluated_query_results _ _ _ _ _ He) in Hin. by apply elem_of_nil in Hin.
  - destruct Ho as (_ & ->). apply elem_of_app in Hin as [?|Hin]; [done|]. by apply Hloop.
  - destruct Ho as (_ & ->). apply elem_of_app in Hin as [?|Hin]; [done|]. by apply Hloop.
Qed.

(** C2. The mapping a source's query is rendered with is
    [attributes | source_params]: it has the keys of both mappings, the
    value of the source wherever the source has the key, and the global
    value elsewhere; every query a run sends was rendered with it. *)
Theorem source_attributes_override_global :
  (∀ attributes source_params : gmap string pyval,
     dom (dict_or attributes source_params) = dom attributes ∪ dom source_params ∧
     (∀ k v, source_params !! k = Some v →
        dict_or attributes source_params !! k = Some v) ∧
     (∀ k, source_params !! k = None →
        dict_or attributes source_params !! k = attributes !! k)) ∧
  (∀ E self h o evs conn q r,
     check E self h = (o, evs) → EvQuery conn q r ∈ evs →
     ∃ source source_params template,
       (source, source_params) ∈ sources self ∧
       read_sql_file E ("metrics/" +:+ lower (metric_name self) +:+ "/metric.sql")
         = Ok template ∧
       str_format template (dict_or (attributes self) source_params) = Rendered q).
Proof.
  split.
  - intros a b. split; [|split].
    + unfold dict_or. by rewrite dom_union_L, (comm_L (∪)).
    + intros k v Hk. by rewrite dict_or_lookup, Hk.
    + intros k Hk. by rewrite dict_or_lookup, Hk.
  - intros E self h o evs conn q r Hrun Hin.
    destruct (check_query_asked _ _ _ _ _ _ _ _ Hrun Hin) as (source & Hasks).
    apply asks_source in Hasks as (params & template & ? & ? & ?).
    by exists source, params, template.
Qed.


(** C5. A failed query is the last thing a run does: the run ends with
    that error, after the header and the complete turns of the sources
    before it; nothing is imported, called or pushed, and the query is
    not asked again. *)
Theorem failed_query_aborts E self h o evs conn q e :
  check E self h = (o, evs) →
  EvQuery conn q (Err e) ∈ evs →
  o = Raise e ∧
  ∃ turns source,
    evs = header self ++ flat_map turn_events turns
            ++ [EvLog (LogQuery q); EvQuery conn q (Err e)] ∧
    (sources self).*1 !! length turns = Some source ∧
    asks E self source conn q ∧
    Forall2 (λ source t, asks E self source t.1.1 t.1.2)
            (take (length turns) (sources self).*1) turns ∧
    query_results evs = (Ok <$> turns.*2) ++ [Err e] ∧
    pushes evs = [] ∧ imports evs = [] ∧ ∀ site, calls_at site evs = [].
Proof.
  intros (h1 & lo & le & Hl & Ho)%check_inv Hin.
  apply query_sources_shape in Hl as (turns & tail & -> & HF & Hlo).
  assert (Hturns : Err e ∉ query_results (flat_map turn_events turns)).
  { rewrite query_results_turns. by intros (? & ? & _)%list_elem_of_fmap. }
  assert (Htail : ∀ source o', abort_tail E self source o' tail →
            EvQuery conn q (Err e) ∈ header self ++ flat_map turn_events turns ++ tail →
            asks E self source conn q ∧
            tail = [EvLog (LogQuery q); EvQuery conn q (Err e)] ∧ o' = Raise e).
  { intros source o' Ht Hin'.
    apply elem_of_app in Hin' as [Hbad|Hin'].
    { apply elem_of_query_results in Hbad. by apply elem_of_nil in Hbad. }
    apply elem_of_app in Hin' as [Hbad|Hin'].
    { apply elem_of_query_results in Hbad. exfalso. by apply Hturns. }
    destruct Ht as [->|[[q' ->]|(conn' & q' & e' & Hasks & -> & ->)]].
    - by apply elem_of_nil in Hin'.
    - apply list_elem_of_singleton in Hin'. done.
    - apply elem_of_cons in Hin' as [?|Hin']; [done|].
      apply list_elem_of_singleton in Hin'. simplify_eq. by repeat split. }
  assert (Hdone : ∀ source,
            (sources self).*1 !! length turns = Some source →
            asks E self source conn q →
            tail = [EvLog (LogQuery q); EvQuery conn q (Err e)] →
            ∃ turns0 source0,
              header self ++ flat_map turn_events turns ++ tail
              = header self ++ flat_map turn_events turns0
                  ++ [EvLog (LogQuery q); EvQuery conn q (Err e)] ∧
              (sources self).*1 !! length turns0 = Some source0 ∧
              asks E self source0 conn q ∧
              Forall2 (λ source t, asks E self source t.1.1 t.1.2)
                      (take (length turns0) (sources self).*1) turns0 ∧
              query_results (header self ++ flat_map turn_events turns ++ tail)
              = (Ok <$> turns0.*2) ++ [Err e] ∧
              pushes (header self ++ flat_map turn_events turns ++ tail) = [] ∧
              imports (header self ++ flat_map turn_events turns ++ tail) = [] ∧
              ∀ site, calls_at site (header self ++ flat_map turn_events turns ++ tail) = []).
  { intros source Hsrc Hasks ->. exists turns, source.
    repeat split; try done.
    - by rewrite !query_results_app, query_results_turns.
    - apply loop_events_quiet. repeat (apply Forall_app; split);
        [apply header_loop_events | apply turns_loop_events | by repeat constructor].
    - apply loop_events_quiet. repeat (apply Forall_app; split);
        [apply header_loop_events | apply turns_loop_events | by repeat constructor].
    - apply loop_events_quiet. repeat (apply Forall_app; split);
        [apply header_loop_events | apply turns_loop_events | by repeat constructor]. }
  destruct lo as [vs|e'|].
  - destruct Hlo as (-> & _ & _). destruct Ho as (h2 & ee & He%evaluate_inv & ->).
    apply elem_of_query_results in Hin.
    rewrite !query_results_app, header_query_results, app_nil_r,
      (evaluated_query_results _ _ _ _ _ He), app_nil_r in Hin. done.
  - destruct Hlo as (source & Hsrc & Ht). destruct Ho as (-> & ->).
    destruct (Htail _ _ Ht Hin) as (Hasks & Htl & Heq). simplify_eq. split; [done|].
    by eapply Hdone.
  - destruct Hlo as (source & Hsrc & Ht). destruct Ho as (-> & ->).
    by destruct (Htail _ _ Ht Hin) as (_ & _ & ?).
Qed.

(** ** The action *)

Lemma resolved_resolves E name o evs f :
  resolved E name o evs → resolves E name f → ∃ g, o = Ret g.
Proof.
  intros Hres (m & Hm & Hrun). destruct Hres as [Hnone|m' Hm' Hrun'|m' g Hm' Hrun'];
    simplify_eq. by exists g.
Qed.

Lemma compared_action_calls E self m o evs :
  compared E self m o evs → calls_at ActionRun evs = [].
Proof.
  destruct 1 as [|name o evs _ (b & ->)%resolved_events _
                 |name f evs r _ (b & ->)%resolved_events]; try done.
  by destruct r.
Qed.

Lemma calls_at_push_events site self m : calls_at site (push_events self m) = [].
Proof. unfold push_events. by destruct (truthy _). Qed.

Lemma evaluated_action_calls E self vs o evs :
  evaluated E self vs o evs →
  (calls_at ActionRun evs = [] ∧
   ∀ name f, action_module E self = Rendered name → ¬ resolves E name f)
  ∨ (∃ name r, action_module E self = Rendered name ∧
       calls_at ActionRun evs = [(name, [row_sets_val vs], ∅, r)]).
Proof.
  destruct 1 as [Hnot|name o evs Hname Hres Hnot
                 |name f evs e Hname (b & ->)%resolved_events
                 |name f evs m e Hname (b & ->)%resolved_events Hg
                 |name f evs m o cevs Hname (b & ->)%resolved_events Hc].
  - left. split; [done|]. intros name f Hname _. apply Hnot.
    rewrite Hname. by eexists.
  - left. split.
    + by destruct (resolved_events _ _ _ _ Hres) as (b & ->).
    + intros name' f Hname' Hf. assert (name' = name) as -> by congruence.
      by destruct (resolved_resolves _ _ _ _ _ Hres Hf) as (g & ->); destruct Hnot; eexists.
  - right. by eexists _, _.
  - right. by eexists _, _.
  - right. exists name, (Ok m). split; [done|].
    by rewrite !calls_at_app, calls_at_push_events, (compared_action_calls _ _ _ _ _ Hc).
Qed.

#[local] Instance VTuple_inj : Inj (=) (=) VTuple.
Proof. by intros ?? [=]. Qed.

#[local] Instance rows_val_inj : Inj (=) (=) rows_val.
Proof. unfold rows_val. intros r1 r2 [= H]. by apply (inj (fmap VTuple)) in H. Qed.

#[local] Instance Ok_inj {A} : Inj (=) (=) (@Ok A).
Proof. by intros ?? [=]. Qed.

(** Distinct lists of row-sets are distinct arguments: order and
    grouping are kept. *)
Lemma row_sets_val_inj vs1 vs2 : row_sets_val vs1 = row_sets_val vs2 → vs1 = vs2.
Proof. unfold row_sets_val. intros [= H]. by apply (inj (fmap rows_val)) in H. Qed.

(** A run in which every source was queried and answered completed its
    loop: its trace is the header, one turn per source in order, and the
    trace of [evaluate] on the row-sets of those turns. *)
Lemma queried_all_sources E self h o evs Rs :
  check E self h = (o, evs) →
  query_results evs = Ok <$> Rs →
  length Rs = length (sources self) →
  ∃ turns ee,
    turns.*2 = Rs ∧
    evs = header self ++ flat_map turn_events turns ++ ee ∧
    evaluated E self Rs o ee ∧
    Forall2 (λ source t, asks E self source t.1.1 t.1.2) (sources self).*1 turns.
Proof.
  intros (h1 & lo & le & Hl & Ho)%check_inv Hq Hlen.
  apply query_sources_shape in Hl as (turns & tail & -> & HF & Hlo).
  destruct lo as [vs|e|]; cycle 1.
  - exfalso. destruct Hlo as (source & Hsrc & Ht). destruct Ho as (-> & ->).
    apply lookup_lt_Some in Hsrc. rewrite length_fmap in Hsrc.
    rewrite !query_results_app, header_query_results, query_results_turns in Hq.
    destruct Ht as [->|[[q' ->]|(conn' & q' & e' & Hasks & -> & _)]]; simpl in Hq.
    + rewrite app_nil_r in Hq. apply (f_equal length) in Hq.
      rewrite !length_fmap in Hq. lia.
    + rewrite app_nil_r in Hq. apply (f_equal length) in Hq.
      rewrite !length_fmap in Hq. lia.
    + assert (Hin : Err e' ∈ Ok <$> Rs).
      { rewrite <- Hq. apply elem_of_app. right. by apply list_elem_of_singleton. }
      by apply list_elem_of_fmap in Hin as (? & ? & _).
  - exfalso. destruct Hlo as (source & Hsrc & Ht). destruct Ho as (-> & ->).
    apply lookup_lt_Some in Hsrc. rewrite length_fmap in Hsrc.
    rewrite !query_results_app, header_query_results, query_results_turns in Hq.
    destruct Ht as [->|[[q' ->]|(conn' & q' & e' & Hasks & -> & ?)]]; [| |done];
      simpl in Hq; rewrite app_nil_r in Hq; apply (f_equal length) in Hq;
      rewrite !length_fmap in Hq; lia.
  - destruct Hlo as (-> & -> & Hturns). destruct Ho as (h2 & ee & He%evaluate_inv & ->).
    rewrite app_nil_r in *. simpl in He.
    pose proof (evaluated_query_results _ _ _ _ _ He) as Hee.
    rewrite !query_results_app, header_query_results, query_results_turns, Hee,
      app_nil_r in Hq. simpl in Hq.
    apply (inj (fmap Ok)) in Hq. subst Rs.
    rewrite firstn_all2 in HF by (by rewrite Hturns).
    by exists turns, ee.
Qed.

(** ** What the plugins are applied to *)

Section Applied.
Context (E : env).

Lemma calls_applied_quiet {A} (m : M A) :
  (∀ h o evs, m h = (o, evs) → Forall (λ ev, ¬ is_call ev) evs) →
  calls_applied E m.
Proof.
  intros Hq h o evs Hm pre site name args kwargs r post ->. apply Hq in Hm.
  apply Forall_app in Hm as [_ Hm]. apply Forall_cons in Hm as [Hm _].
  by destruct Hm.
Qed.

Lemma calls_applied_bind {A B} (m : M A) (k : A → M B) :
  calls_applied E m →
  (∀ a h e1, m h = (Ret a, e1) → calls_applied E (k a)) →
  calls_applied E (bind m k).
Proof.
  intros Hm Hk h o evs Hb pre site name args kwargs r post Hevs.
  apply bind_inv in Hb as [(a & e1 & e2 & H1 & H2 & ->)|[(e & H1 & ->)|[H1 ->]]];
    [|by eapply Hm..].
  apply app_eq_inv in Hevs as [(l & -> & Hl)|(l & -> & ->)].
  - destruct l as [|ev l]; simpl in Hl.
    + pose proof (Hk a _ _ H1 _ _ _ H2 [] site name args kwargs r post (eq_sym Hl)) as Hr.
      destruct Hr as (f & Hf & ->). exists f. split; [done|]. by rewrite !app_nil_r.
    + injection Hl as <- ->. by eapply Hm.
  - destruct (Hk a _ _ H1 _ _ _ H2 l site name args kwargs r post eq_refl)
      as (f & Hf & ->).
    exists f. split; [done|]. by rewrite (assoc app).
Qed.

Lemma calls_applied_lift {A} (r : result A) : calls_applied E (lift r).
Proof. apply calls_applied_quiet. by intros h o evs [_ ->]%lift_inv. Qed.

Lemma calls_applied_lift_fmt f : calls_applied E (lift_fmt f).
Proof. apply calls_applied_quiet. by intros h o evs [_ ->]%lift_fmt_inv. Qed.

Lemma calls_applied_info r : calls_applied E (info r).
Proof.
  apply calls_applied_quiet. intros h o evs [_ ->]%info_inv.
  repeat constructor. by intros [].
Qed.

Lemma calls_applied_import name : calls_applied E (import_module E name).
Proof.
  apply calls_applied_quiet.
  intros h o evs [(m & _ & _ & ->)|(_ & _ & ->)]%import_module_inv;
    repeat constructor; by intros [].
Qed.

Lemma calls_applied_push self m :
  calls_applied E (send_metric_to_prometheus E self m).
Proof.
  apply calls_applied_quiet.
  intros h o evs [[_ ->]|(e & _ & ->)]%send_metric_inv;
    repeat constructor; by intros [].
Qed.

Lemma calls_applied_call site name f args kwargs :
  resolves E name f → calls_applied E (call site name f args kwargs).
Proof.
  intros Hf h o evs [= _ <-] pre site' name' args' kwargs' r post Hevs.
  destruct pre as [|ev pre]; [|by destruct pre].
  injection Hevs as <- <- <- <- <- _. exists f. by rewrite app_nil_r.
Qed.

Lemma calls_applied_query_sources self keys acc :
  calls_applied E (query_sources E self keys acc).
Proof.
  apply calls_applied_quiet. intros h o evs Hq%query_sources_loop_events.
  eapply Forall_impl; [exact Hq|]. intros [[]| | | |]; simpl; tauto.
Qed.

Lemma calls_applied_resolved {B} name (k : pyfun → M B) :
  (∀ f, resolves E name f → calls_applied E (k f)) →
  calls_applied E (action_mod <- import_module E name ;;
                   action_run <- getattr_run action_mod ;; k action_run).
Proof.
  intros Hk. apply calls_applied_bind; [apply calls_applied_import|].
  intros m h e1 Himp. apply calls_applied_bind; [apply calls_applied_lift|].
  intros f h' e2 Hrun. apply Hk. exists m.
  apply import_module_inv in Himp as [(m' & Hm & Heq & _)|(_ & Heq & _)];
    [|discriminate Heq].
  injection Heq as <-. split; [done|].
  apply lift_inv in Hrun as [Hrun _].
  destruct (run m) as [f'|]; simpl in Hrun; [|discriminate Hrun].
  by injection Hrun as ->.
  Unshelve. exact [].
Qed.

Lemma calls_applied_evaluate self vs : calls_applied E (evaluate E self vs).
Proof.
  unfold evaluate.
  apply calls_applied_bind; [apply calls_applied_lift_fmt|]. intros an _ _ _.
  apply calls_applied_resolved. intros f Hf.
  apply calls_applied_bind; [by apply calls_applied_call|]. intros m _ _ _.
  apply calls_applied_bind; [apply calls_applied_info|]. intros _ _ _ _.
  apply calls_applied_bind.
  { destruct (truthy _); [apply calls_applied_push|].
    apply calls_applied_quiet. unfold ret. by intros h o evs [= _ <-]. }
  intros _ _ _ _.
  apply calls_applied_bind; [apply calls_applied_lift_fmt|]. intros cn _ _ _.
  apply calls_applied_resolved. intros g Hg.
  apply calls_applied_bind; [by apply calls_applied_call|]. intros c _ _ _.
  apply calls_applied_info.
Qed.

Lemma calls_applied_check self : calls_applied E (check E self).
Proof.
  unfold check.
  repeat (apply calls_applied_bind; [apply calls_applied_info|]; intros _ _ _ _).
  apply calls_applied_bind; [apply calls_applied_query_sources|].
  intros vs _ _ _. apply calls_applied_evaluate.
Qed.
End Applied.

Lemma resolves_functional E name f g : resolves E name f → resolves E name g → f = g.
Proof. intros (m & Hm & Hf) (m' & Hm' & Hg). congruence. Qed.

Lemma resolved_by E name f o evs :
  resolved E name o evs → resolves E name f → o = Ret f ∧ evs = [EvImport name true].
Proof.
  intros Hr (m & Hm & Hf). destruct Hr as [Hnone|m' Hm' Hno|m' f' Hm' Hf']; [congruence..|].
  split; [|done]. congruence.
Qed.

Lemma elem_of_calls_at site name args kwargs r evs :
  EvCall site name args kwargs r ∈ evs → (name, args, kwargs, r) ∈ calls_at site evs.
Proof.
  intros H. unfold calls_at. apply list_elem_of_omap.
  exists (EvCall site name args kwargs r). split; [done|]. by destruct site.
Qed.


Lemma evaluated_resolved_shape E self vs o ee an f :
  evaluated E self vs o ee →
  action_module E self = Rendered an → resolves E an f →
  ∃ r rest,
    ee = EvImport an true :: EvCall ActionRun an [row_sets_val vs] ∅ r :: rest ∧
    match r with
    | Err e => rest = [] ∧ o = Raise e
    | Ok m =>
        (∃ e, truthy (prometheus_gateway self) = true ∧
              rest = [EvLog (LogMetric m); EvPush (gauge_of self m) (Err e)] ∧
              o = Raise e)
        ∨ (∃ cevs, rest = EvLog (LogMetric m) :: push_events self m ++ cevs ∧
                   compared E self m o cevs)
    end.
Proof.
  intros He Han Hf.
  destruct He as [Hno|name o evs Hname Hr Hno|name f' evs e Hname Hr
                 |name f' evs m e Hname Hr Hgw|name f' evs m o cevs Hname Hr Hc].
  - rewrite Han in Hno. destruct Hno. by eexists.
  - assert (name = an) as -> by congruence.
    destruct (resolved_by _ _ _ _ _ Hr Hf) as [-> _]. destruct Hno. by eexists.
  - assert (name = an) as -> by congruence.
    destruct (resolved_by _ _ _ _ _ Hr Hf) as [_ ->]. by exists (Err e), [].
  - assert (name = an) as -> by congruence.
    destruct (resolved_by _ _ _ _ _ Hr Hf) as [_ ->].
    exists (Ok m), [EvLog (LogMetric m); EvPush (gauge_of self m) (Err e)].
    split; [done|]. left. by exists e.
  - assert (name = an) as -> by congruence.
    destruct (resolved_by _ _ _ _ _ Hr Hf) as [_ ->].
    exists (Ok m), (EvLog (LogMetric m) :: push_events self m ++ cevs).
    split; [done|]. right. by exists cevs.
Qed.

(** With all sources answered and the action resolved, the run calls
    the action right after importing it, and what the call event carries
    is what the action gave at that point. *)
Lemma check_action_applied E self h o evs Rs an f :
  check E self h = (o, evs) →
  query_results evs = Ok <$> Rs →
  length Rs = length (sources self) →
  action_module E self = Rendered an → resolves E an f →
  ∃ turns r rest,
    turns.*2 = Rs ∧
    Forall2 (λ source t, asks E self source t.1.1 t.1.2) (sources self).*1 turns ∧
    r = f (h ++ header self ++ flat_map turn_events turns ++ [EvImport an true])
          [row_sets_val Rs] ∅ ∧
    evs = (header self ++ flat_map turn_events turns ++ [EvImport an true])
          ++ EvCall ActionRun an [row_sets_val Rs] ∅ r :: rest ∧
    match r with
    | Err e => rest = [] ∧ o = Raise e
    | Ok m =>
        (∃ e, truthy (prometheus_gateway self) = true ∧
              rest = [EvLog (LogMetric m); EvPush (gauge_of self m) (Err e)] ∧
              o = Raise e)
        ∨ (∃ cevs, rest = EvLog (LogMetric m) :: push_events self m ++ cevs ∧
                   compared E self m o cevs)
    end.
Proof.
  intros Hrun Hq Hlen Han Hf.
  destruct (queried_all_sources _ _ _ _ _ _ Hrun Hq Hlen)
    as (turns & ee & Hturns & Hevs & He & HF).
  destruct (evaluated_resolved_shape _ _ _ _ _ _ _ He Han Hf) as (r & rest & -> & Hrest).
  assert (evs = (header self ++ flat_map turn_events turns ++ [EvImport an true])
                ++ EvCall ActionRun an [row_sets_val Rs] ∅ r :: rest) as Hsplit.
  { rewrite Hevs. by rewrite <- !(assoc app). }
  destruct (calls_applied_check E self h o evs Hrun _ _ _ _ _ _ _ Hsplit)
    as (f' & Hf' & Hr).
  rewrite (resolves_functional _ _ _ _ Hf' Hf) in Hr.
  by exists turns, r, rest.
Qed.


Lemma calls_at_elem site c evs :
  c ∈ calls_at site evs → EvCall site c.1.1.1 c.1.1.2 c.1.2 c.2 ∈ evs.
Proof.
  unfold calls_at. intros (ev & Hev & Hc)%list_elem_of_omap.
  destruct ev as [| | |s name args kwargs r|]; try done.
  destruct site, s; simplify_eq/=; done.
Qed.

Lemma check_call_resolves E self h o evs site c :
  check E self h = (o, evs) → c ∈ calls_at site evs → ∃ f, resolves E c.1.1.1 f.
Proof.
  intros Hrun (pre & post & Hevs)%calls_at_elem%list_elem_of_split.
  destruct (calls_applied_check E self h o evs Hrun _ _ _ _ _ _ _ Hevs) as (f & Hf & _).
  by exists f.
Qed.

(** C3 (as the code has it). When every configured source has been
    queried and has returned its row-set, the queries were made in
    configured order, one per source, and the action is called at most
    once, with the list of those row-sets in that order and no keyword
    argument. When the action name resolves to a module with a [run],
    the call is made exactly once, right after the last turn of the loop
    and the import, and the result the run goes on with is what that
    [run] gave for the list; when the name resolves to no such module
    the action is not called. *)
Theorem action_receives_ordered_row_sets E self h o evs Rs :
  check E self h = (o, evs) →
  query_results evs = Ok <$> Rs →
  length Rs = length (sources self) →
  (∃ turns ee,
     turns.*2 = Rs ∧
     evs = header self ++ flat_map turn_events turns ++ ee ∧
     query_results ee = [] ∧
     Forall2 (λ source t, asks E self source t.1.1 t.1.2)
             (sources self).*1 turns) ∧
  (∀ c, c ∈ calls_at ActionRun evs → c.1.1.2 = [row_sets_val Rs] ∧ c.1.2 = ∅) ∧
  length (calls_at ActionRun evs) ≤ 1 ∧
  (∀ name f, action_module E self = Rendered name → resolves E name f →
     ∃ turns rest,
       turns.*2 = Rs ∧
       evs = (header self ++ flat_map turn_events turns ++ [EvImport name true])
             ++ EvCall ActionRun name [row_sets_val Rs] ∅
                  (f (h ++ header self ++ flat_map turn_events turns
                        ++ [EvImport name true])
                     [row_sets_val Rs] ∅)
                :: rest ∧
       calls_at ActionRun evs
       = [(name, [row_sets_val Rs], ∅,
           f (h ++ header self ++ flat_map turn_events turns ++ [EvImport name true])
             [row_sets_val Rs] ∅)]) ∧
  ((∀ name f, action_module E self = Rendered name → ¬ resolves E name f) →
   calls_at ActionRun evs = []).
Proof.
  intros Hrun Hq Hlen.
  destruct (queried_all_sources _ _ _ _ _ _ Hrun Hq Hlen)
    as (turns & ee & Hturns & Hevs & He & HF).
  assert (Hquiet : ∀ site, calls_at site (header self ++ flat_map turn_events turns) = []).
  { apply loop_events_quiet, Forall_app. split;
      [apply header_loop_events | apply turns_loop_events]. }
  split.
  { exists turns, ee. repeat split; try done. by eapply evaluated_query_results. }
  assert (calls_at ActionRun evs = calls_at ActionRun ee) as Hcalls.
  { by rewrite Hevs, (assoc app), calls_at_app, Hquiet. }
  destruct (evaluated_action_calls _ _ _ _ _ He) as [[Hnil Hno]|(name & r & Hname & Hone)].
  - rewrite Hnil in Hcalls. rewrite Hcalls.
    split; [by intros c ?%elem_of_nil|]. split; [simpl; lia|].
    split; [|done]. intros name f Hname Hf. by destruct (Hno name f Hname).
  - rewrite Hone in Hcalls.
    split; [rewrite Hcalls; by intros c ->%list_elem_of_singleton|].
    split; [rewrite Hcalls; simpl; lia|]. split.
    + intros name' f Hname' Hf.
      destruct (check_action_applied _ _ _ _ _ _ _ _ Hrun Hq Hlen Hname' Hf)
        as (turns' & r' & rest & Hturns' & _ & Hr' & Hsplit & _).
      assert (name' = name) as -> by congruence.
      assert ((name, [row_sets_val Rs], (∅ : gmap string pyval), r')
              ∈ calls_at ActionRun evs) as Hin.
      { apply elem_of_calls_at. rewrite Hsplit. apply elem_of_app. right. by left. }
      rewrite Hcalls in Hin. apply list_elem_of_singleton in Hin.
      assert (r = r') as -> by congruence.
      exists turns', rest. rewrite <- Hr'. by rewrite Hcalls.
    + intros Hno.
      destruct (check_call_resolves E self h o evs ActionRun
                  (name, [row_sets_val Rs], ∅, r) Hrun) as (f & Hf).
      { rewrite Hcalls. by left. }
      by destruct (Hno name f Hname).
Qed.

(** ** The push *)

(** C8. A run pushes nothing when no gateway address is set; a push is
    attempted only for a non-empty configured address, and goes to it. *)
Theorem push_only_when_gateway_configured E self h o evs :
  check E self h = (o, evs) →
  (prometheus_gateway self = None → pushes evs = []) ∧
  (∀ req, req ∈ pushes evs →
     ∃ g, prometheus_gateway self = Some g ∧ g ≠ "" ∧ push_gateway req = Some g).
Proof.
  intros [Hp|(Hg & m & Hp)]%check_pushes; rewrite Hp; split.
  - done.
  - by intros req ?%elem_of_nil.
  - intros Hnone. by rewrite Hnone in Hg.
  - intros req ->%list_elem_of_singleton.
    apply truthy_true in Hg as (g & Hg & Hne). exists g. by rewrite <- Hg.
Qed.

(** ** The comparator *)

Lemma pushes_resolved E name o evs : resolved E name o evs → pushes evs = [].
Proof. by intros (b & ->)%resolved_events. Qed.


(** Every call of a comparator made by [evaluate], with the action call
    that produced its metric. *)
Lemma evaluated_comparator_calls E self vs o evs :
  evaluated E self vs o evs →
  calls_at ComparatorRun evs = [] ∨
  ∃ an cn m r,
    calls_at ActionRun evs = [(an, [row_sets_val vs], ∅, Ok m)] ∧
    calls_at ComparatorRun evs = [(cn, [], comparison_kwargs self m, r)].
Proof.
  destruct 1 as [Hnot|name o evs Hname (b & ->)%resolved_events Hnot
                 |name f' evs e Hname (b & ->)%resolved_events
                 |name f' evs m e Hname (b & ->)%resolved_events Hg
                 |name f' evs m o cevs Hname (b & ->)%resolved_events Hc];
    try by left.
  rewrite !calls_at_app, !calls_at_push_events,
    (compared_action_calls _ _ _ _ _ Hc). simpl.
  destruct Hc as [Hnot|cn o evs Hcn (b' & ->)%resolved_events Hnot
                  |cn g' evs r Hcn (b' & ->)%resolved_events]; try by left.
  right. exists name, cn, m, r. by destruct r.
Qed.

Lemma check_calls E self h o evs :
  check E self h = (o, evs) →
  (∀ site, calls_at site evs = []) ∨
  ∃ vs h' ee, evaluate E self vs h' = (o, ee) ∧ ∀ site, calls_at site evs = calls_at site ee.
Proof.
  intros (h1 & lo & le & Hl & Ho)%check_inv.
  assert (Hquiet : ∀ site, calls_at site (header self ++ le) = []).
  { apply loop_events_quiet, Forall_app. split;
      [apply header_loop_events | by eapply query_sources_loop_events]. }
  destruct lo as [vs|e|].
  - destruct Ho as (h2 & ee & He & ->). right. exists vs, h2, ee. split; [done|].
    intros site. by rewrite (assoc app), calls_at_app, Hquiet.
  - destruct Ho as (_ & ->). by left.
  - destruct Ho as (_ & ->). by left.
Qed.

(** C1 (as the code has it). The comparator is called at most once, with
    no positional argument and with the global attributes plus the value
    the action returned under the key ["metric"]; the attributes of the
    sources are not part of the call. *)
Theorem comparator_receives_global_attributes E self h o evs c :
  check E self h = (o, evs) →
  c ∈ calls_at ComparatorRun evs →
  ∃ an vs m,
    calls_at ActionRun evs = [(an, [row_sets_val vs], ∅, Ok m)] ∧
    calls_at ComparatorRun evs = [c] ∧
    c.1.1.2 = [] ∧
    c.1.2 = dict_or (attributes self) (<["metric" := m]> ∅) ∧
    c.1.2 !! "metric" = Some m ∧
    ∀ k, k ≠ "metric" → c.1.2 !! k = attributes self !! k.
Proof.
  intros [Hnone|(vs & h' & ee & He%evaluate_inv & Hcalls)]%check_calls Hc.
  { rewrite Hnone in Hc. by apply elem_of_nil in Hc. }
  rewrite !Hcalls in *.
  destruct (evaluated_comparator_calls _ _ _ _ _ He)
    as [Hnone|(an & cn & m & r & Ha & Hcmp)].
  { rewrite Hnone in Hc. by apply elem_of_nil in Hc. }
  rewrite Hcmp in Hc. apply list_elem_of_singleton in Hc as ->.
  exists an, vs, m. repeat split; try done.
  - simpl. unfold comparison_kwargs, dict_or.
    by rewrite lookup_union_l', lookup_insert_eq.
  - intros k Hk. simpl. unfold comparison_kwargs, dict_or.
    rewrite lookup_union_r; [done|]. by rewrite lookup_insert_ne.
Qed.


(** ** Resolving the plugins *)

Lemma action_module_name E self a :
  py_str (action self) = Some a →
  action_module E self
  = Rendered (root_folder E +:+ ".actions." +:+ a +:+ ".action").
Proof.
  intros Ha. unfold action_module, str_format.
  let r := eval vm_compute in (scan None action_function_template) in
  change (scan None action_function_template) with r.
  cbv beta iota.
  erewrite render_substitute; [reflexivity|by repeat constructor|].
  cbn [substitute fmap option_fmap option_map].
  rewrite lookup_insert_eq, lookup_insert_ne, lookup_insert_eq by done.
  cbn [mbind option_bind py_str]. rewrite Ha. reflexivity.
Qed.

Lemma comparator_module_name E self c :
  py_str (comparator self) = Some c →
  comparator_module E self
  = Rendered (root_folder E +:+ ".comparators." +:+ c +:+ ".comparator").
Proof.
  intros Hc. unfold comparator_module, str_format.
  let r := eval vm_compute in (scan None comparator_function_template) in
  change (scan None comparator_function_template) with r.
  cbv beta iota.
  erewrite render_substitute; [reflexivity|by repeat constructor|].
  cbn [substitute fmap option_fmap option_map].
  rewrite lookup_insert_eq, lookup_insert_ne, lookup_insert_eq by done.
  cbn [mbind option_bind py_str]. rewrite Hc. reflexivity.
Qed.

Lemma loop_events_no_metric evs m :
  Forall loop_event evs → EvLog (LogMetric m) ∉ evs.
Proof.
  intros HF Hin. rewrite Forall_forall in HF. by apply HF in Hin.
Qed.

Lemma unresolved_error E name o evs :
  resolved E name o evs → (∀ f, ¬ resolves E name f) →
  ∃ e, o = Raise e ∧ resolution_error e.
Proof.
  intros [Hnone|m Hm Hrun|m f Hm Hrun] Hno.
  - by eexists.
  - by eexists.
  - destruct (Hno f). by exists m.
Qed.

Lemma evaluated_unresolved_action E self vs o evs an :
  evaluated E self vs o evs →
  action_module E self = Rendered an → (∀ f, ¬ resolves E an f) →
  (∃ e, o = Raise e ∧ resolution_error e) ∧ ∀ site, calls_at site evs = [].
Proof.
  intros Hev Han Hno.
  destruct Hev as [Hnot|name o evs Hname Hres Hnot
                 |name f' evs e Hname Hres
                 |name f' evs m e Hname Hres Hg
                 |name f' evs m o cevs Hname Hres Hc].
  - destruct Hnot. rewrite Han. by eexists.
  - assert (name = an) as -> by congruence.
    destruct (unresolved_error _ _ _ _ Hres Hno) as (e & -> & He).
    split; [by exists e|]. intros site. by destruct (resolved_events _ _ _ _ Hres) as (b & ->).
  - assert (name = an) as -> by congruence.
    by destruct (unresolved_error _ _ _ _ Hres Hno) as (? & ? & _).
  - assert (name = an) as -> by congruence.
    by destruct (unresolved_error _ _ _ _ Hres Hno) as (? & ? & _).
  - assert (name = an) as -> by congruence.
    by destruct (unresolved_error _ _ _ _ Hres Hno) as (? & ? & _).
Qed.

Lemma compared_unresolved_comparator E self m o evs cn :
  compared E self m o evs →
  comparator_module E self = Rendered cn → (∀ g, ¬ resolves E cn g) →
  (∃ e, o = Raise e ∧ resolution_error e) ∧ calls_at ComparatorRun evs = [].
Proof.
  intros Hc Hcn Hno.
  destruct Hc as [Hnot|name o evs Hname Hres Hnot|name g evs r Hname Hres].
  - destruct Hnot. rewrite Hcn. by eexists.
  - assert (name = cn) as -> by congruence.
    destruct (unresolved_error _ _ _ _ Hres Hno) as (e & -> & He).
    split; [by exists e|]. by destruct (resolved_events _ _ _ _ Hres) as (b & ->).
  - assert (name = cn) as -> by congruence.
    by destruct (unresolved_error _ _ _ _ Hres Hno) as (? & ? & _).
Qed.

Lemma evaluated_unresolved_comparator E self vs o evs cn :
  evaluated E self vs o evs →
  comparator_module E self = Rendered cn → (∀ g, ¬ resolves E cn g) →
  ¬ returned o ∧ calls_at ComparatorRun evs = [] ∧
  ∀ m, EvLog (LogMetric m) ∈ evs → (∀ req e, EvPush req (Err e) ∉ evs) →
       ∃ e, o = Raise e ∧ resolution_error e.
Proof.
  intros Hev Hcn Hno.
  destruct Hev as [Hnot|name o evs Hname Hres Hnot
                 |name f' evs e Hname (b & ->)%resolved_events
                 |name f' evs m e Hname (b & ->)%resolved_events Hg
                 |name f' evs m o cevs Hname (b & ->)%resolved_events Hc].
  - split; [|split; [done|]].
    + intros [u Hu]. by destruct (name_outcome _).
    + by intros m ?%elem_of_nil.
  - split; [|split].
    + intros [u Hu]. destruct o as [f| |]; [|done..]. destruct Hnot. by eexists.
    + by destruct (resolved_events _ _ _ _ Hres) as (b & ->).
    + intros m Hin. destruct (resolved_events _ _ _ _ Hres) as (b & ->).
      by apply list_elem_of_singleton in Hin.
  - split; [by intros [u ?]|]. split; [done|].
    intros m Hin. repeat (apply elem_of_cons in Hin as [?|Hin]; [done|]).
    by apply elem_of_nil in Hin.
  - split; [by intros [u ?]|]. split; [done|].
    intros m' _ Hpush. destruct (Hpush (gauge_of self m) e).
    do 3 right. by left.
  - destruct (compared_unresolved_comparator _ _ _ _ _ _ Hc Hcn Hno)
      as ((e & -> & He) & Hcalls).
    split; [by intros [u ?]|]. split.
    + by rewrite !calls_at_app, calls_at_push_events, Hcalls.
    + intros _ _ _. by exists e.
Qed.

Lemma evaluated_imports E self vs o evs name found :
  evaluated E self vs o evs → EvImport name found ∈ evs →
  action_module E self = Rendered name ∨ comparator_module E self = Rendered name.
Proof.
  assert (Hpush : ∀ m, EvImport name found ∉ push_events self m).
  { intros m. unfold push_events. destruct (truthy _).
    - intros Hin. repeat (apply elem_of_cons in Hin as [?|Hin]; [done|]).
      by apply elem_of_nil in Hin.
    - by intros ?%elem_of_nil. }
  assert (Hcmp : ∀ m o cevs, compared E self m o cevs → EvImport name found ∈ cevs →
                 comparator_module E self = Rendered name).
  { intros m o' cevs [Hnot|cn o'' evs' Hcn (b & ->)%resolved_events Hnot
                     |cn g evs' r Hcn (b & ->)%resolved_events] Hin.
    - by apply elem_of_nil in Hin.
    - apply list_elem_of_singleton in Hin. by simplify_eq.
    - apply elem_of_cons in Hin as [?|Hin]; [by simplify_eq|].
      apply elem_of_cons in Hin as [?|Hin]; [done|].
      destruct r; [by apply list_elem_of_singleton in Hin | by apply elem_of_nil in Hin]. }
  intros Hev Hin.
  destruct Hev as [Hnot|an o evs Hname (b & ->)%resolved_events Hnot
                 |an f' evs e Hname (b & ->)%resolved_events
                 |an f' evs m e Hname (b & ->)%resolved_events Hg
                 |an f' evs m o cevs Hname (b & ->)%resolved_events Hc].
  - by apply elem_of_nil in Hin.
  - apply list_elem_of_singleton in Hin. left. by simplify_eq.
  - apply elem_of_cons in Hin as [?|Hin]; [left; by simplify_eq|].
    by apply list_elem_of_singleton in Hin.
  - apply elem_of_cons in Hin as [?|Hin]; [left; by simplify_eq|].
    repeat (apply elem_of_cons in Hin as [?|Hin]; [done|]). by apply elem_of_nil in Hin.
  - apply elem_of_cons in Hin as [?|Hin]; [left; by simplify_eq|].
    simpl in Hin.
    apply elem_of_cons in Hin as [?|Hin]; [done|].
    apply elem_of_cons in Hin as [?|Hin]; [done|].
    apply elem_of_app in Hin as [Hin|Hin]; [by destruct (Hpush m)|].
    right. by eapply Hcmp.
Qed.

(** What a run is made of: the quiet part (header and loop) and, when
    the loop completed, the trace of [evaluate]. *)
Lemma check_stages E self h o evs :
  check E self h = (o, evs) →
  ∃ quiet, Forall loop_event quiet ∧
    ((¬ returned o ∧ evs = quiet) ∨
     ∃ vs ee, evaluated E self vs o ee ∧ evs = quiet ++ ee).
Proof.
  intros (h1 & lo & le & Hl & Ho)%check_inv.
  exists (header self ++ le). split.
  { apply Forall_app. split;
      [apply header_loop_events | by eapply query_sources_loop_events]. }
  destruct lo as [vs|e|].
  - destruct Ho as (h2 & ee & He%evaluate_inv & ->). right. exists vs, ee.
    by rewrite (assoc app).
  - destruct Ho as (-> & ->). left. split; [by intros [? ?]|done].
  - destruct Ho as (-> & ->). left. split; [by intros [? ?]|done].
Qed.

(** The action is looked up as [<root>.actions.<name>.action] and the
    comparator as [<root>.comparators.<name>.comparator], and nothing
    else is imported; a name that does not resolve keeps the run from
    completing and its function from being called. *)
Lemma check_plugins_lookup E self h o evs :
  check E self h = (o, evs) →
  (∀ a, py_str (action self) = Some a →
     action_module E self
     = Rendered (root_folder E +:+ ".actions." +:+ a +:+ ".action")) ∧
  (∀ c, py_str (comparator self) = Some c →
     comparator_module E self
     = Rendered (root_folder E +:+ ".comparators." +:+ c +:+ ".comparator")) ∧
  (∀ name found, EvImport name found ∈ evs →
     action_module E self = Rendered name ∨
     comparator_module E self = Rendered name) ∧
  (∀ an, action_module E self = Rendered an → (∀ f, ¬ resolves E an f) →
     ¬ returned o ∧ (∀ site, calls_at site evs = []) ∧
     ∀ Rs, query_results evs = Ok <$> Rs → length Rs = length (sources self) →
           ∃ e, o = Raise e ∧ resolution_error e) ∧
  (∀ cn, comparator_module E self = Rendered cn → (∀ g, ¬ resolves E cn g) →
     ¬ returned o ∧ calls_at ComparatorRun evs = [] ∧
     ∀ m, EvLog (LogMetric m) ∈ evs → (∀ req e, EvPush req (Err e) ∉ evs) →
          ∃ e, o = Raise e ∧ resolution_error e).
Proof.
  intros Hrun.
  split; [apply action_module_name|]. split; [apply comparator_module_name|].
  pose proof (check_stages _ _ _ _ _ Hrun) as (quiet & Hquiet & Hstage).
  pose proof (loop_events_quiet _ Hquiet) as (_ & Himp & Hcalls).
  split; [|split].
  - intros name found Hin.
    assert (Hnot : EvImport name found ∉ quiet).
    { intros Hq. rewrite Forall_forall in Hquiet. by apply Hquiet in Hq. }
    destruct Hstage as [(_ & ->)|(vs & ee & He & ->)]; [done|].
    apply elem_of_app in Hin as [?|Hin]; [done|]. by eapply evaluated_imports.
  - intros an Han Hno.
    destruct Hstage as [(Hret & ->)|(vs & ee & He & ->)].
    + split; [done|]. split; [done|].
      intros Rs Hq Hlen.
      destruct (queried_all_sources _ _ _ _ _ _ Hrun Hq Hlen)
        as (turns & ee & _ & _ & He & _).
      by destruct (evaluated_unresolved_action _ _ _ _ _ _ He Han Hno) as (? & _).
    + destruct (evaluated_unresolved_action _ _ _ _ _ _ He Han Hno)
        as ((e & -> & Hres) & Hee).
      split; [by intros [? ?]|]. split.
      * intros site. by rewrite calls_at_app, Hcalls, Hee.
      * intros _ _ _. by exists e.
  - intros cn Hcn Hno.
    destruct Hstage as [(Hret & ->)|(vs & ee & He & ->)].
    + split; [done|]. split; [done|].
      intros m Hin. by destruct (loop_events_no_metric _ m Hquiet).
    + destruct (evaluated_unresolved_comparator _ _ _ _ _ _ He Hcn Hno)
        as (Hret & Hee & Herr).
      split; [done|]. split; [by rewrite calls_at_app, Hcalls, Hee|].
      intros m Hin Hpush. apply (Herr m).
      * apply elem_of_app in Hin as [Hin|Hin]; [|done].
        by destruct (loop_events_no_metric _ m Hquiet).
      * intros req e Hbad. apply (Hpush req e), elem_of_app. by right.
Qed.


(** ** Construction *)

(** C6 (as the code has it). With the metric-definition table loaded
    and every entry of it carrying its action, comparator and
    documentation, construction fails exactly when the metric name is
    not a key of the table, and then with [KeyError] for that name; when
    it succeeds the checker holds the three fields of the table's entry
    for the name. *)
Theorem init_resolves_metric E table metric_name prefix srcs attrs conns gateway :
  read_yml_file E "metrics_description.yml" = Ok table →
  table_complete table →
  (table !! metric_name = None ↔
     ∃ e, init E metric_name prefix srcs attrs conns gateway = Err e) ∧
  (table !! metric_name = None ↔
     init E metric_name prefix srcs attrs conns gateway
     = Err (KeyError (VStr metric_name))) ∧
  (∀ self, init E metric_name prefix srcs attrs conns gateway = Ok self →
     ∃ entry, table !! metric_name = Some entry ∧
       entry !! "action" = Some (action self) ∧
       entry !! "comparator" = Some (comparator self) ∧
       entry !! "prometheus_documentation" = Some (prometheus_documentation self)).
Proof.
  intros Hread Hcomplete.
  destruct (table !! metric_name) as [entry|] eqn:Hentry.
  - destruct (Hcomplete _ _ Hentry) as ([a Ha] & [c Hc] & [d Hd]).
    assert (∃ self, init E metric_name prefix srcs attrs conns gateway = Ok self ∧
                    action self = a ∧ comparator self = c ∧
                    prometheus_documentation self = d) as (self & -> & <- & <- & <-).
    { eexists. unfold init. rewrite Hread. simpl. unfold getitem.
      rewrite Hentry. simpl. rewrite Ha, Hc, Hd. simpl. done. }
    repeat split; try done.
    + by intros (e & ?).
    + intros self' [= <-]. by exists entry.
  - assert (init E metric_name prefix srcs attrs conns gateway
            = Err (KeyError (VStr metric_name))) as ->.
    { unfold init. rewrite Hread. simpl. unfold getitem. by rewrite Hentry. }
    repeat split; try done. by eexists.
Qed.

Lemma lower_char_idemp c : lower_char (lower_char c) = lower_char c.
Proof. by destruct c as [[] [] [] [] [] [] [] []]. Qed.

Lemma lower_idemp s : lower (lower s) = lower s.
Proof.
  induction s as [|c s IH]; [done|].
  change (String (lower_char (lower_char c)) (lower (lower s))
          = String (lower_char c) (lower s)).
  by rewrite lower_char_idemp, IH.
Qed.

(** C10. A constructed checker carries the lower-case metric name and
    the lower-case prefix, whatever the case of the arguments (changing
    the case of either changes neither); every push a later run makes
    names its gauge and its job with exactly these. *)
Theorem gauge_and_job_are_lowercase E metric_name prefix srcs attrs conns gateway self :
  init E metric_name prefix srcs attrs conns gateway = Ok self →
  prometheus_metric_name self = lower metric_name ∧
  prometheus_metric_prefix self = lower prefix ∧
  lower (prometheus_metric_name self) = prometheus_metric_name self ∧
  lower (prometheus_metric_prefix self) = prometheus_metric_prefix self ∧
  ∀ h o evs req,
    check E self h = (o, evs) → req ∈ pushes evs →
    gauge_name req = lower metric_name ∧ push_job req = lower prefix.
Proof.
  intros Hinit.
  assert (prometheus_metric_name self = lower metric_name ∧
          prometheus_metric_prefix self = lower prefix) as [Hn Hp].
  { unfold init in Hinit.
    destruct (read_yml_file _ _) as [content|]; [|done]. simpl in Hinit.
    destruct (getitem content metric_name) as [entry|]; [|done]. simpl in Hinit.
    destruct (getitem entry "action") as [a|]; [|done]. simpl in Hinit.
    destruct (getitem entry "comparator") as [c|]; [|done]. simpl in Hinit.
    destruct (getitem entry "prometheus_documentation") as [d|]; [|done].
    simpl in Hinit. by injection Hinit as <-. }
  rewrite Hn, Hp, !lower_idemp. repeat split; try done.
  - destruct (check_pushes _ _ _ _ _ H) as [Hnone|(_ & m & Hpush)].
    + rewrite Hnone in H0. by apply elem_of_nil in H0.
    + rewrite Hpush in H0. apply list_elem_of_singleton in H0 as ->. done.
  - destruct (check_pushes _ _ _ _ _ H) as [Hnone|(_ & m & Hpush)].
    + rewrite Hnone in H0. by apply elem_of_nil in H0.
    + rewrite Hpush in H0. apply list_elem_of_singleton in H0 as ->. done.
Qed.

(** * The sample deployment, run *)

Ltac in_trace := repeat first [apply list_elem_of_here | apply list_elem_of_further].

Lemma sample_sum_counts_resolves :
  resolves Sample.world "src.actions.sum_counts.action" Sample.sum_counts.
Proof. eexists. split; [vm_compute; reflexivity | reflexivity]. Defined.


Lemma sample_no_such_action f :
  ¬ resolves Sample.world "src.actions.no_such_action.action" f.
Proof. intros (m & Hm & _). vm_compute in Hm. discriminate Hm. Defined.

(** The specification's example: the two sources return [[(5,)]] and
    [[(7,)]], the action receives both row-sets in order and yields 12. *)
Lemma action_receives_ordered_row_sets_witness :
  calls_at ActionRun Sample.normal_run.2
  = [("src.actions.sum_counts.action",
      [row_sets_val [[[VInt 5]]; [[VInt 7]]]], ∅, Ok (VInt 12))].
Proof.
  destruct (proj1 (proj2 (proj2 (proj2
    (action_receives_ordered_row_sets Sample.world
       (Sample.row_count Sample.two_sources Sample.gateway) []
       Sample.normal_run.1 Sample.normal_run.2 [[[VInt 5]]; [[VInt 7]]]
       ltac:(vm_compute; reflexivity) ltac:(vm_compute; reflexivity) eq_refl))))
    "src.actions.sum_counts.action" Sample.sum_counts
    ltac:(vm_compute; reflexivity) sample_sum_counts_resolves)
    as (turns & rest & _ & _ & Hcalls).
  exact Hcalls.
Defined.

(** C3, as first stated, fails on the metric [orphans], whose action is
    no module: both sources answer, and the action is never called. *)
Lemma two_sources_unresolved_counterexample :
  query_results Sample.orphans_run.2 = [Ok [[VInt 5]]; Ok [[VInt 7]]] ∧
  calls_at ActionRun Sample.orphans_run.2 = [] ∧
  Sample.orphans_run.1 = Raise (ModuleNotFoundError "src.actions.no_such_action.action").
Proof. repeat split; vm_compute; reflexivity. Qed.

(** In the same run the comparator gets the two global attributes and
    the metric, and nothing of the sources. *)
Lemma comparator_receives_global_attributes_witness :
  ∃ an vs m,
    calls_at ActionRun Sample.normal_run.2 = [(an, [row_sets_val vs], ∅, Ok m)] ∧
    <["metric" := VInt 12]> Sample.globals
    = dict_or Sample.globals (<["metric" := m]> ∅).
Proof.
  destruct (comparator_receives_global_attributes Sample.world
              (Sample.row_count Sample.two_sources Sample.gateway) []
              Sample.normal_run.1 Sample.normal_run.2
              ("src.comparators.greater_than.comparator", [],
               <["metric" := VInt 12]> Sample.globals, Ok (VBool true)))
    as (an & vs & m & Haction & _ & _ & Hkwargs & _).
  - vm_compute; reflexivity.
  - vm_compute. in_trace.
  - exists an, vs, m. split; [exact Haction | exact Hkwargs].
Defined.

(** C1, as stated, fails on that run: the keyword arguments are not the
    attributes merged with those of either source. *)
Lemma comparator_kwargs_counterexample :
  calls_at ComparatorRun Sample.normal_run.2
  = [("src.comparators.greater_than.comparator", [],
      <["metric" := VInt 12]> Sample.globals, Ok (VBool true))] ∧
  ∀ source source_params,
    (source, source_params) ∈ Sample.two_sources →
    <["metric" := VInt 12]> Sample.globals
    ≠ dict_or (dict_or Sample.globals source_params) (<["metric" := VInt 12]> ∅).
Proof.
  split; [vm_compute; reflexivity|].
  intros source params Hin Heq.
  apply (f_equal (λ m : gmap string pyval, m !! "connection")) in Heq.
  unfold Sample.two_sources in Hin.
  apply elem_of_cons in Hin as [[= -> ->]|Hin].
  { vm_compute in Heq. discriminate Heq. }
  apply list_elem_of_singleton in Hin as [= -> ->].
  vm_compute in Heq. discriminate Heq.
Qed.

Lemma source_attributes_override_global_witness :
  ∃ source source_params template,
    (source, source_params) ∈ Sample.two_sources ∧
    read_sql_file Sample.world "metrics/row_count/metric.sql" = Ok template ∧
    str_format template (dict_or Sample.globals source_params)
    = Rendered "select count(*) from orders_copy where dt = '2024-01-01'".
Proof.
  apply (proj2 source_attributes_override_global Sample.world
           (Sample.row_count Sample.two_sources Sample.gateway) []
           Sample.normal_run.1 Sample.normal_run.2 Sample.db2
           "select count(*) from orders_copy where dt = '2024-01-01'"
           (Ok [[VInt 7]])).
  - vm_compute; reflexivity.
  - vm_compute. in_trace.
Defined.

(** C4, as stated, fails for a template with a literal brace: every
    named placeholder has a value, yet an array literal [{}] is read as
    a positional field and a lone [}] is malformed. *)
Lemma literal_brace_counterexample :
  (∀ n, n ∈ fields (scan None "select '{}'::int[] from {table}").1 →
        positional n = false →
        is_Some (dict_or Sample.globals (Sample.src "main" "orders") !! n)) ∧
  str_format "select '{}'::int[] from {table}"
    (dict_or Sample.globals (Sample.src "main" "orders"))
  = Raised IndexError ∧
  fields (scan None "select '}' from {table}").1 = [] ∧
  str_format "select '}' from {table}"
    (dict_or Sample.globals (Sample.src "main" "orders"))
  = Raised (ValueError "Single '}' encountered in format string").
Proof.
  split; [|repeat split; vm_compute; reflexivity].
  intros n Hn. vm_compute in Hn.
  apply elem_of_cons in Hn as [->|Hn]; [by intros [=]|].
  apply list_elem_of_singleton in Hn as ->. intros _. vm_compute. by eexists.
Qed.

(** The count query with its table and date; without the source's
    attributes its first field, [table], has no value. *)
Lemma format_substitutes_or_raises_witness :
  (∃ text,
     substitute (dict_or Sample.globals (Sample.src "main" "orders"))
       (scan None Sample.count_query).1 = Some text ∧
     str_format Sample.count_query (dict_or Sample.globals (Sample.src "main" "orders"))
     = Rendered text) ∧
  (∃ pre n post,
     fields (scan None Sample.count_query).1 = pre ++ n :: post ∧
     (∀ k, k ∈ pre → is_Some (Sample.globals !! k)) ∧
     Sample.globals !! n = None ∧
     str_format Sample.count_query Sample.globals = Raised (KeyError (VStr n))).
Proof.
  split.
  - apply (proj1 (proj1 (proj2 (format_substitutes_or_raises Sample.count_query
                    (dict_or Sample.globals (Sample.src "main" "orders"))))
                 (scan None Sample.count_query).1
                 ltac:(vm_compute; reflexivity)
                 ltac:(vm_compute; repeat constructor)
                 ltac:(unfold dict_or, Sample.src, Sample.globals;
                       repeat first [apply map_Forall_union_2 | apply map_Forall_insert_2
                                    | apply map_Forall_empty | vm_compute; by eexists]))).
    intros n Hn. vm_compute in Hn.
    apply elem_of_cons in Hn as [->|Hn]; [vm_compute; by eexists|].
    apply list_elem_of_singleton in Hn as ->. vm_compute. by eexists.
  - apply (proj1 (format_substitutes_or_raises Sample.count_query Sample.globals)
                 (scan None Sample.count_query).1).
    + vm_compute; reflexivity.
    + vm_compute. repeat constructor.
    + unfold Sample.globals.
      repeat first [apply map_Forall_insert_2 | apply map_Forall_empty
                   | vm_compute; by eexists].
    + exists "table". split; [vm_compute; in_trace | vm_compute; reflexivity].
Defined.

(** The middle source of three is down: the run stops there. *)
Lemma failed_query_aborts_witness :
  Sample.outage_run.1 = Raise (External "psycopg2.OperationalError") ∧
  query_results Sample.outage_run.2
  = [Ok [[VInt 5]]; Err (External "psycopg2.OperationalError")].
Proof.
  destruct (failed_query_aborts Sample.world
              (Sample.row_count Sample.outage_sources Sample.gateway) []
              Sample.outage_run.1 Sample.outage_run.2 Sample.db3
              "select count(*) from orders_old where dt = '2024-01-01'"
              (External "psycopg2.OperationalError"))
    as (Ho & _).
  - vm_compute; reflexivity.
  - vm_compute. in_trace.
  - split; [exact Ho | vm_compute; reflexivity].
Defined.

Lemma sample_table_complete : table_complete Sample.table.
Proof.
  unfold table_complete, Sample.table, Sample.entry.
  repeat first [apply map_Forall_insert_2 | apply map_Forall_empty];
    repeat split; by eexists.
Defined.

(** The table is keyed by the name as given: ["Row_Count"] is not
    ["row_count"], whose entry a checker for [row_count] carries. *)
Lemma init_resolves_metric_witness :
  init Sample.world "Row_Count" "DQ" Sample.two_sources Sample.globals Sample.conns
    Sample.gateway
  = Err (KeyError (VStr "Row_Count")) ∧
  ∃ entry, Sample.table !! "row_count" = Some entry ∧
    entry !! "action" = Some (VStr "sum_counts") ∧
    entry !! "comparator" = Some (VStr "greater_than") ∧
    entry !! "prometheus_documentation" = Some (VStr "Rows per day").
Proof.
  split.
  - apply (init_resolves_metric Sample.world Sample.table "Row_Count" "DQ"
             Sample.two_sources Sample.globals Sample.conns Sample.gateway).
    + reflexivity.
    + exact sample_table_complete.
    + vm_compute; reflexivity.
  - apply (proj2 (proj2
      (init_resolves_metric Sample.world Sample.table "row_count" "DQ"
         Sample.two_sources Sample.globals Sample.conns Sample.gateway
         eq_refl sample_table_complete))
      (Sample.row_count Sample.two_sources Sample.gateway)).
    vm_compute; reflexivity.
Defined.

(** C6, as first stated, fails on a table whose entry is incomplete: the
    name [row_count] is a key of the table, and construction still ends
    in a lookup error, for the comparator the entry lacks. *)
Lemma incomplete_entry_counterexample :
  ∃ table,
    read_yml_file SampleDb.incomplete_world "metrics_description.yml" = Ok table ∧
    is_Some (table !! "row_count") ∧
    init SampleDb.incomplete_world "row_count" "DQ" [] ∅ ∅ None
    = Err (KeyError (VStr "comparator")) ∧
    ¬ (table !! "row_count" = None ↔
       ∃ e, init SampleDb.incomplete_world "row_count" "DQ" [] ∅ ∅ None = Err e).
Proof.
  exists {[ "row_count" := {[ "action" := VStr "sum_counts" ]} ]}.
  assert (init SampleDb.incomplete_world "row_count" "DQ" [] ∅ ∅ None
          = Err (KeyError (VStr "comparator"))) as Hinit
    by (vm_compute; reflexivity).
  split; [vm_compute; reflexivity|].
  split; [by eexists|].
  split; [exact Hinit|].
  intros [_ Habsent].
  assert (({[ "row_count" := {[ "action" := VStr "sum_counts" ]} ]}
             : gmap string (gmap string pyval)) !! "row_count" = None) as Hnone
    by (apply Habsent; eexists; exact Hinit).
  vm_compute in Hnone. discriminate Hnone.
Qed.

(** C7, as stated, fails when a source is down: the same unresolvable
    action, but the run ends with the database error. *)
Lemma unresolved_action_counterexample :
  init Sample.world "orphans" "DQ" Sample.outage_sources Sample.globals Sample.conns
    Sample.gateway
  = Ok (Sample.orphans Sample.outage_sources Sample.gateway) ∧
  action_module Sample.world (Sample.orphans Sample.outage_sources Sample.gateway)
  = Rendered "src.actions.no_such_action.action" ∧
  modules Sample.world !! "src.actions.no_such_action.action" = None ∧
  Sample.orphans_outage_run.1 = Raise (External "psycopg2.OperationalError") ∧
  ¬ resolution_error (External "psycopg2.OperationalError").
Proof.
  repeat split; try (vm_compute; reflexivity). by intros [].
Qed.

Lemma push_only_when_gateway_configured_witness :
  pushes Sample.silent_run.2 = [].
Proof.
  refine (proj1 (push_only_when_gateway_configured Sample.world
                   (Sample.row_count Sample.two_sources None) []
                   Sample.silent_run.1 Sample.silent_run.2 _) _).
  - vm_compute; reflexivity.
  - reflexivity.
Defined.



(** [Late_Rows] with prefix [DQ]: the gauge is [late_rows], the job [dq]. *)
Lemma gauge_and_job_are_lowercase_witness :
  prometheus_metric_name (Sample.late_rows Sample.two_sources Sample.gateway)
  = "late_rows" ∧
  prometheus_metric_prefix (Sample.late_rows Sample.two_sources Sample.gateway)
  = "dq".
Proof.
  destruct (gauge_and_job_are_lowercase Sample.world "Late_Rows" "DQ"
              Sample.two_sources Sample.globals Sample.conns Sample.gateway
              (Sample.late_rows Sample.two_sources Sample.gateway))
    as (Hn & Hp & _).
  - vm_compute; reflexivity.
  - split; [exact Hn | exact Hp].
Defined.

(** * Further properties of a run *)

Section FailsLast.
Context {A : Type}.
Implicit Types (o : outcome A) (evs : list event).

Lemma fails_last_app o pre evs : clean pre → fails_last o evs → fails_last o (pre ++ evs).
Proof.
  intros Hpre [Hc|(p & ev & e & -> & Hp & Hev & Ho)].
  - left. by apply Forall_app.
  - right. exists (pre ++ p), ev, e. rewrite (assoc app). repeat split; try done.
    by apply Forall_app.
Qed.

Lemma fails_last_final pre ev e :
  clean pre → failure_of ev = Some e → fails_last (A:=A) (Raise e) (pre ++ [ev]).
Proof. intros Hpre Hev. right. by exists pre, ev, e. Qed.
End FailsLast.

Lemma clean_header self : clean (header self).
Proof. by repeat constructor. Qed.

Lemma clean_turns turns : clean (flat_map turn_events turns).
Proof. induction turns as [|t turns IH]; [constructor|]. simpl. by repeat constructor. Qed.

Lemma clean_push_events self m : clean (push_events self m).
Proof. unfold push_events. destruct (truthy _); by repeat constructor. Qed.

Lemma fails_last_resolved E name o evs :
  resolved E name o evs → fails_last o evs.
Proof.
  intros [Hnone|m Hm Hrun|m f Hm Hrun].
  - apply (fails_last_final []); [constructor|done].
  - left. by repeat constructor.
  - left. by repeat constructor.
Qed.

Lemma fails_last_propagate {A B} (o : outcome A) evs :
  ¬ returned o → fails_last o evs → fails_last (propagate (B:=B) o) evs.
Proof.
  intros Hnot [Hc|(p & ev & e & -> & Hp & Hev & ->)]; [by left|].
  right. by exists p, ev, e.
Qed.

Lemma fails_last_compared E self m o evs : compared E self m o evs → fails_last o evs.
Proof.
  intros [Hnot|name o' evs' Hname Hres Hnot|name f evs' r Hname Hres].
  - left. constructor.
  - by apply fails_last_propagate, (fails_last_resolved E name).
  - inversion Hres; subst. destruct r as [c|e].
    + left. by repeat constructor.
    + apply (fails_last_final [_]); [by repeat constructor|done].
Qed.

Lemma fails_last_evaluated E self vs o evs : evaluated E self vs o evs → fails_last o evs.
Proof.
  intros [Hnot|name o' evs' Hname Hres Hnot
         |name f evs' e Hname Hres
         |name f evs' m e Hname Hres Hg
         |name f evs' m o' cevs Hname Hres Hc].
  - left. constructor.
  - by apply fails_last_propagate, (fails_last_resolved E name).
  - inversion Hres; subst. apply (fails_last_final [_]); [by repeat constructor|done].
  - inversion Hres; subst. apply (fails_last_final [_; _; _]); [by repeat constructor|done].
  - inversion Hres; subst. simpl.
    apply (fails_last_app _ [_; _; _]); [by repeat constructor|].
    apply fails_last_app; [apply clean_push_events|]. by eapply fails_last_compared.
Qed.

Lemma fails_last_abort_tail E self source (o : outcome (list rows)) tail :
  abort_tail E self source o tail → fails_last o tail.
Proof.
  intros [->|[[q ->]|(conn & q & e & _ & -> & ->)]].
  - left. constructor.
  - left. by repeat constructor.
  - apply (fails_last_final [_]); [by repeat constructor|done].
Qed.

Lemma check_fails_last E self h o evs :
  check E self h = (o, evs) → fails_last o evs.
Proof.
  intros (h1 & lo & le & Hl & Ho)%check_inv.
  apply query_sources_shape in Hl as (turns & tail & -> & _ & Hlo).
  destruct lo as [vs|e|].
  - destruct Hlo as (-> & _). destruct Ho as (h2 & ee & He%evaluate_inv & ->).
    apply fails_last_app; [apply clean_header|].
    apply fails_last_app; [rewrite app_nil_r; apply clean_turns|].
    by eapply fails_last_evaluated.
  - destruct Hlo as (source & _ & Ht%fails_last_abort_tail). destruct Ho as (-> & ->).
    apply fails_last_app; [apply clean_header|].
    apply fails_last_app; [apply clean_turns|].
    destruct Ht as [?|(p & ev & e' & -> & Hp & Hev & [= <-])]; [by left|].
    by apply fails_last_final.
  - destruct Hlo as (source & _ & Ht%fails_last_abort_tail). destruct Ho as (-> & ->).
    apply fails_last_app; [apply clean_header|].
    apply fails_last_app; [apply clean_turns|].
    destruct Ht as [?|(p & ev & e & _ & _ & _ & ?)]; [by left|done].
Qed.

(** A failure recorded anywhere in such a trace is its last event. *)
Lemma fails_last_at {A} (o : outcome A) pre ev post e :
  fails_last o (pre ++ ev :: post) → failure_of ev = Some e →
  post = [] ∧ o = Raise e.
Proof.
  intros [Hclean|(p & ev' & e' & Heq & Hp & Hev' & ->)] Hev.
  - apply Forall_app in Hclean as [_ Hclean]. apply Forall_cons in Hclean as [Hnone _].
    congruence.
  - destruct post as [|x post _] using rev_ind.
    + apply app_inj_tail in Heq as [_ ->]. split; [done|]. congruence.
    + rewrite app_comm_cons, (assoc app) in Heq. apply app_inj_tail in Heq as [<- _].
      apply Forall_app in Hp as [_ Hp]. apply Forall_cons in Hp as [Hnone _].
      congruence.
Qed.

(** X1. Errors of the outside world are never swallowed or retried: in
    any run at most one event records a failed query, import, call or
    push; it is the last event of the run, and its error is the outcome. *)
Theorem first_failure_is_final E self h o evs :
  check E self h = (o, evs) →
  clean evs ∨
  ∃ pre ev e, evs = pre ++ [ev] ∧ clean pre ∧ failure_of ev = Some e ∧ o = Raise e.
Proof. apply check_fails_last. Qed.

(** X2. A run that returns did everything: after the header it queried
    every source once, in order, each with success; imported the action
    and called it with the row-sets; logged the metric; pushed it exactly
    when a gateway is configured; imported the comparator, called it and
    logged its result. Nothing else happened. *)
Theorem completed_run_is_complete E self h u evs :
  check E self h = (Ret u, evs) →
  ∃ turns an cn m c,
    length turns = length (sources self) ∧
    Forall2 (λ source t, asks E self source t.1.1 t.1.2) (sources self).*1 turns ∧
    action_module E self = Rendered an ∧
    comparator_module E self = Rendered cn ∧
    evs = header self ++ flat_map turn_events turns
          ++ [EvImport an true;
              EvCall ActionRun an [row_sets_val turns.*2] ∅ (Ok m);
              EvLog (LogMetric m)]
          ++ push_events self m
          ++ [EvImport cn true;
              EvCall ComparatorRun cn []
                (dict_or (attributes self) (<["metric" := m]> ∅)) (Ok c);
              EvLog (LogComparisonResult c)].
Proof.
  intros (h1 & lo & le & Hl & Ho)%check_inv.
  apply query_sources_shape in Hl as (turns & tail & -> & HF & Hlo).
  destruct lo as [vs|e|]; [|by destruct Ho..].
  destruct Hlo as (-> & -> & Hlen). destruct Ho as (h2 & ee & He%evaluate_inv & ->).
  rewrite firstn_all2 in HF by (by rewrite Hlen). rewrite length_fmap in Hlen.
  rewrite app_nil_r. simpl in He.
  assert (Hprop : ∀ B (o' : outcome B), ¬ returned o' → propagate o' ≠ Ret u).
  { intros B [b| |] Hnot; [|done..]. destruct Hnot. by eexists. }
  inversion He as [Hnot Ho|name o' evs' Hname Hres Hnot Ho
                  |name f evs' e Hname Hres
                  |name f evs' m e Hname Hres Hg
                  |name f evs' m o' cevs Hname Hres Hc]; subst.
  - by destruct (Hprop _ _ Hnot).
  - by destruct (Hprop _ _ Hnot).
  - inversion Hres; subst.
    inversion Hc as [Hnot Ho|cn o' evs' Hcn Hres' Hnot Ho|cn g evs' r Hcn Hres' Ho]; subst.
    + by destruct (Hprop _ _ Hnot).
    + by destruct (Hprop _ _ Hnot).
    + inversion Hres'; subst. destruct r as [c|e]; [|done].
      by exists turns, name, cn, m, c.
Qed.

Lemma queries_app evs1 evs2 : queries (evs1 ++ evs2) = queries evs1 ++ queries evs2.
Proof. apply omap_app. Qed.

Lemma queries_turns turns :
  queries (flat_map turn_events turns) = (λ t, (t.1.1, t.1.2, Ok t.2)) <$> turns.
Proof. induction turns as [|t turns IH]; [done|]. simpl. f_equal. apply IH. Qed.

Lemma queries_no_results evs : query_results evs = [] → queries evs = [].
Proof.
  induction evs as [|ev evs IH]; [done|]. destruct ev; simpl; try done.
Qed.

(** X3. In every run the queries follow the configured sources: the
    i-th query of the trace is the one the i-th source asks for, no
    source is queried twice or skipped over, and only the last query
    can have failed. *)
Theorem queries_follow_sources E self h o evs :
  check E self h = (o, evs) →
  length (queries evs) ≤ length (sources self) ∧
  Forall2 (λ source qu, asks E self source qu.1.1 qu.1.2)
          (take (length (queries evs)) (sources self).*1) (queries evs) ∧
  ∀ i conn q e, queries evs !! i = Some (conn, q, Err e) → S i = length (queries evs).
Proof.
  intros (h1 & lo & le & Hl & Ho)%check_inv.
  apply query_sources_shape in Hl as (turns & tail & -> & HF & Hlo).
  assert (Hturns : ∀ i conn q e,
            ((λ t : gmap string pyval * string * rows, (t.1.1, t.1.2, Ok t.2)) <$> turns)
              !! i ≠ Some (conn, q, Err e)).
  { intros i conn q e. rewrite list_lookup_fmap.
    destruct (turns !! i) as [t|]; [|done]. simpl. by intros [=]. }
  assert (HF' : Forall2 (λ source qu, asks E self source qu.1.1 qu.1.2)
                  (take (length turns) (sources self).*1)
                  ((λ t : gmap string pyval * string * rows, (t.1.1, t.1.2, Ok t.2)) <$> turns)).
  { apply Forall2_fmap_r. eapply Forall2_impl; [exact HF|]. done. }
  pose proof (Forall2_length _ _ _ HF) as Hlen. rewrite length_take in Hlen.
  destruct lo as [vs|e|].
  - destruct Hlo as (-> & _ & Hk). destruct Ho as (h2 & ee & He%evaluate_inv & ->).
    rewrite length_fmap in Hk.
    rewrite !queries_app, app_nil_r, queries_turns,
      (queries_no_results ee) by (by eapply evaluated_query_results).
    simpl. rewrite app_nil_r, length_fmap. split; [lia|]. split; [done|].
    intros i conn q e Hi. by destruct (Hturns i conn q e).
  - destruct Hlo as (source & Hsrc & Ht). destruct Ho as (-> & ->).
    pose proof (lookup_lt_Some _ _ _ Hsrc) as Hlt. rewrite length_fmap in Hlt.
    rewrite !queries_app, queries_turns. simpl.
    destruct Ht as [->|[[q' ->]|(conn' & q' & e' & Hasks & -> & _)]]; simpl.
    + rewrite app_nil_r, length_fmap. split; [lia|]. split; [done|].
      intros i conn q e0 Hi. by destruct (Hturns i conn q e0).
    + rewrite app_nil_r, length_fmap. split; [lia|]. split; [done|].
      intros i conn q e0 Hi. by destruct (Hturns i conn q e0).
    + rewrite length_app, length_fmap. simpl. split; [lia|]. split.
      * replace (length turns + 1) with (S (length turns)) by lia.
        erewrite take_S_r by exact Hsrc.
        apply Forall2_app; [done|]. by repeat constructor.
      * intros i conn q e0 Hi.
        destruct (decide (i < length turns)) as [Hlti|Hge].
        { rewrite lookup_app_l in Hi by (by rewrite length_fmap).
          by destruct (Hturns i conn q e0). }
        apply lookup_lt_Some in Hi. rewrite length_app, length_fmap in Hi.
        simpl in Hi. lia.
  - destruct Hlo as (source & Hsrc & Ht). destruct Ho as (-> & ->).
    pose proof (lookup_lt_Some _ _ _ Hsrc) as Hlt. rewrite length_fmap in Hlt.
    rewrite !queries_app, queries_turns. simpl.
    destruct Ht as [->|[[q' ->]|(conn' & q' & e' & Hasks & -> & ?)]]; [| |done]; simpl.
    + rewrite app_nil_r, length_fmap. split; [lia|]. split; [done|].
      intros i conn q e0 Hi. by destruct (Hturns i conn q e0).
    + rewrite app_nil_r, length_fmap. split; [lia|]. split; [done|].
      intros i conn q e0 Hi. by destruct (Hturns i conn q e0).
Qed.


(** X5. A run goes to the client library for a push at most once. The
    value it hands to the gauge's [set] is the value the action returned
    in that run, unchanged (converting it to a float is the library's
    part); the gauge is created with the label name [instance], labelled
    [instance="dq"], with the documentation string and the name of the
    metric, and the push is addressed to the configured gateway under
    the job of the prefix. *)
Theorem pushed_gauge_is_action_result E self h o evs req :
  check E self h = (o, evs) →
  req ∈ pushes evs →
  ∃ an vs m,
    calls_at ActionRun evs = [(an, [row_sets_val vs], ∅, Ok m)] ∧
    pushes evs = [req] ∧
    gauge_value req = m ∧
    gauge_labelnames req = ["instance"] ∧
    gauge_labels req = [("instance", "dq")] ∧
    gauge_documentation req = prometheus_documentation self ∧
    gauge_name req = prometheus_metric_name self ∧
    push_job req = prometheus_metric_prefix self ∧
    push_gateway req = prometheus_gateway self.
Proof.
  intros (h1 & lo & le & Hl & Ho)%check_inv Hin.
  pose proof (loop_events_quiet (header self ++ le)) as (Hp & _ & Hc).
  { apply Forall_app. split;
      [apply header_loop_events | by eapply query_sources_loop_events]. }
  destruct lo as [vs|e|]; cycle 1.
  - destruct Ho as (_ & ->). rewrite Hp in Hin. by apply elem_of_nil in Hin.
  - destruct Ho as (_ & ->). rewrite Hp in Hin. by apply elem_of_nil in Hin.
  - destruct Ho as (h2 & ee & He%evaluate_inv & ->).
    assert (Hpe : pushes (header self ++ le ++ ee) = pushes ee).
    { by rewrite (assoc app), pushes_app, Hp. }
    assert (Hce : calls_at ActionRun (header self ++ le ++ ee) = calls_at ActionRun ee).
    { by rewrite (assoc app), calls_at_app, Hc. }
    rewrite Hpe in Hin.
    assert (∃ an m, calls_at ActionRun ee = [(an, [row_sets_val vs], ∅, Ok m)] ∧
                    pushes ee = [req] ∧ req = gauge_of self m) as (an & m & Ha & Hq & ->).
    { destruct He as [Hnot|an o' evs' Hname (b & ->)%resolved_events Hnot
                     |an f evs' e Hname (b & ->)%resolved_events
                     |an f evs' m e Hname (b & ->)%resolved_events Hg
                     |an f evs' m o' cevs Hname (b & ->)%resolved_events Hcmp];
        try by apply elem_of_nil in Hin.
      - apply list_elem_of_singleton in Hin as ->. by exists an, m.
      - rewrite !pushes_app, !calls_at_app, pushes_push_events, calls_at_push_events,
          (compared_pushes _ _ _ _ _ Hcmp), (compared_action_calls _ _ _ _ _ Hcmp) in *.
        simpl in *. destruct (truthy (prometheus_gateway self));
          [|by apply elem_of_nil in Hin].
        apply list_elem_of_singleton in Hin as ->. by exists an, m. }
    exists an, vs, m. by rewrite Hpe, Hce.
Qed.






(** ** Plugins and construction *)

Lemma imports_push_events self m : imports (push_events self m) = [].
Proof. unfold push_events. by destruct (truthy _). Qed.

Lemma compared_imports E self m o evs :
  compared E self m o evs →
  imports evs = [] ∨ ∃ cn, comparator_module E self = Rendered cn ∧ imports evs = [cn].
Proof.
  intros [Hnot|cn o' evs' Hcn (b & ->)%resolved_events Hnot
         |cn g evs' r Hcn (b & ->)%resolved_events].
  - by left.
  - right. by exists cn.
  - right. exists cn. split; [done|]. by destruct r.
Qed.

Lemma evaluated_imports_prefix E self vs o evs :
  evaluated E self vs o evs →
  imports evs = [] ∨
  ∃ an, action_module E self = Rendered an ∧
    (imports evs = [an] ∨
     ∃ cn, comparator_module E self = Rendered cn ∧ imports evs = [an; cn]).
Proof.
  intros [Hnot|an o' evs' Hname (b & ->)%resolved_events Hnot
         |an f evs' e Hname (b & ->)%resolved_events
         |an f evs' m e Hname (b & ->)%resolved_events Hg
         |an f evs' m o' cevs Hname (b & ->)%resolved_events Hc].
  - by left.
  - right. exists an. split; [done|]. by left.
  - right. exists an. split; [done|]. by left.
  - right. exists an. split; [done|]. by left.
  - right. exists an. split; [done|].
    rewrite !imports_app, imports_push_events. simpl.
    destruct (compared_imports _ _ _ _ _ Hc) as [->|(cn & Hcn & ->)]; [by left|].
    right. by exists cn.
Qed.

(** ** The order of the lookups *)

Lemma check_shape E self h o evs :
  check E self h = (o, evs) →
  (Forall loop_event evs ∧ ¬ returned o) ∨
  (∃ turns ee,
     evs = header self ++ flat_map turn_events turns ++ ee ∧
     Forall2 (λ source t, asks E self source t.1.1 t.1.2) (sources self).*1 turns ∧
     evaluated E self turns.*2 o ee).
Proof.
  intros (h1 & lo & le & Hl & Ho)%check_inv.
  pose proof (query_sources_loop_events _ _ _ _ _ _ _ Hl) as Hloop.
  destruct lo as [vs|e|].
  - destruct Ho as (h2 & ee & He%evaluate_inv & ->). right.
    destruct (query_sources_shape _ _ _ _ _ _ _ Hl)
      as (turns & tail & -> & HF & -> & -> & Hlen).
    exists turns, ee. rewrite app_nil_r. split; [done|]. split; [|done].
    rewrite Hlen in HF. by rewrite firstn_all in HF.
  - destruct Ho as (-> & ->). left. split; [|by intros [? ?]].
    apply Forall_app. split; [apply header_loop_events|done].
  - destruct Ho as (-> & ->). left. split; [|by intros [? ?]].
    apply Forall_app. split; [apply header_loop_events|done].
Qed.

Lemma resolved_import E name o evs :
  resolved E name o evs →
  ∃ found, evs = [EvImport name found] ∧ (returned o → found = true).
Proof. intros [Hnone|m Hm Hno|m f Hm Hf]; eexists; split; try done. by intros [? ?]. Qed.

Lemma compared_import_shape E self m o cevs :
  compared E self m o cevs →
  cevs = [] ∨
  ∃ cn found tail,
    comparator_module E self = Rendered cn ∧
    cevs = EvImport cn found :: tail ∧ imports tail = [] ∧ pushes tail = [] ∧
    calls_at ActionRun tail = [].
Proof.
  intros [Hno|name o' evs Hname Hr Hno|name f evs r Hname Hr]; [by left|right..].
  - destruct (resolved_import _ _ _ _ Hr) as (found & -> & _).
    by exists name, found, [].
  - destruct (resolved_import _ _ _ _ Hr) as (found & -> & _).
    exists name, found. eexists. split; [done|]. split; [reflexivity|].
    by destruct r.
Qed.

Lemma evaluated_import_shape E self vs o ee :
  evaluated E self vs o ee →
  ee = [] ∨
  ∃ an found mid,
    action_module E self = Rendered an ∧
    ee = EvImport an found :: mid ∧
    (imports mid = [] ∨
     ∃ m cn found' tail,
       found = true ∧
       comparator_module E self = Rendered cn ∧
       mid = EvCall ActionRun an [row_sets_val vs] ∅ (Ok m)
             :: EvLog (LogMetric m) :: push_events self m
             ++ EvImport cn found' :: tail ∧
       imports tail = [] ∧ pushes tail = [] ∧ calls_at ActionRun tail = []).
Proof.
  intros [Hno|name o' evs Hname Hr Hno|name f evs e Hname Hr
         |name f evs m e Hname Hr Hgw|name f evs m o' cevs Hname Hr Hc];
    [by left|right..];
    destruct (resolved_import _ _ _ _ Hr) as (found & -> & Hfound).
  - exists name, found, []. split; [done|]. split; [done|]. by left.
  - exists name, found. eexists. split; [done|]. split; [reflexivity|]. by left.
  - exists name, found. eexists. split; [done|]. split; [reflexivity|]. by left.
  - exists name, found. eexists. split; [done|]. split; [reflexivity|].
    destruct (compared_import_shape _ _ _ _ _ Hc)
      as [->|(cn & found' & tail & Hcn & -> & Htail)].
    + left. rewrite app_nil_r. simpl. apply imports_push_events.
    + right. exists m, cn, found', tail.
      split; [apply Hfound; by eexists|]. done.
Qed.

Lemma check_import_order E self h o evs :
  check E self h = (o, evs) →
  (imports evs = [] ∨
   ∃ turns an found mid,
     action_module E self = Rendered an ∧
     evs = header self ++ flat_map turn_events turns ++ EvImport an found :: mid ∧
     Forall2 (λ source t, asks E self source t.1.1 t.1.2) (sources self).*1 turns ∧
     clean (header self ++ flat_map turn_events turns) ∧
     query_results mid = [] ∧
     (imports mid = [] ∨
      ∃ m cn found' tail,
        found = true ∧ comparator_module E self = Rendered cn ∧
        mid = EvCall ActionRun an [row_sets_val turns.*2] ∅ (Ok m)
              :: EvLog (LogMetric m) :: push_events self m
              ++ EvImport cn found' :: tail ∧
        clean (push_events self m) ∧
        imports tail = [] ∧ pushes tail = [] ∧ calls_at ActionRun tail = [])) ∧
  (∀ ev e, ev ∈ evs → failure_of ev = Some e →
     o = Raise e ∧ ∃ pre, evs = pre ++ [ev] ∧ clean pre) ∧
  (∀ conn q e, EvQuery conn q (Err e) ∈ evs → imports evs = []).
Proof.
  intros Hrun.
  assert (Horder :
    imports evs = [] ∨
    ∃ turns an found mid,
      action_module E self = Rendered an ∧
      evs = header self ++ flat_map turn_events turns ++ EvImport an found :: mid ∧
      Forall2 (λ source t, asks E self source t.1.1 t.1.2) (sources self).*1 turns ∧
      clean (header self ++ flat_map turn_events turns) ∧
      query_results mid = [] ∧
      (imports mid = [] ∨
       ∃ m cn found' tail,
         found = true ∧ comparator_module E self = Rendered cn ∧
         mid = EvCall ActionRun an [row_sets_val turns.*2] ∅ (Ok m)
               :: EvLog (LogMetric m) :: push_events self m
               ++ EvImport cn found' :: tail ∧
         clean (push_events self m) ∧
         imports tail = [] ∧ pushes tail = [] ∧ calls_at ActionRun tail = [])).
  { destruct (check_shape _ _ _ _ _ Hrun) as [[Hloop _]|(turns & ee & Hevs & HF & He)].
    { left. by apply loop_events_quiet. }
    assert (Hquiet : imports (header self ++ flat_map turn_events turns) = []).
    { apply loop_events_quiet, Forall_app. split;
        [apply header_loop_events | apply turns_loop_events]. }
    pose proof (evaluated_query_results _ _ _ _ _ He) as Hq.
    destruct (evaluated_import_shape _ _ _ _ _ He)
      as [->|(an & found & mid & Han & -> & Hmid)].
    { left. rewrite Hevs, app_nil_r. exact Hquiet. }
    right. exists turns, an, found, mid.
    split; [done|]. split; [done|]. split; [done|].
    split; [apply Forall_app; split; [apply clean_header | apply clean_turns]|].
    split; [exact Hq|].
    destruct Hmid as [?|(m & cn & found' & tail & ? & ? & ? & ?)]; [by left|right].
    exists m, cn, found', tail. split; [done|]. split; [done|]. split; [done|].
    split; [apply clean_push_events|done]. }
  split; [exact Horder|]. split.
  - intros ev e Hin Hfail.
    destruct (check_fails_last _ _ _ _ _ Hrun) as [Hclean|(pre & ev0 & e0 & -> & Hpre & Hf0 & ->)].
    { unfold clean in Hclean. rewrite Forall_forall in Hclean.
      specialize (Hclean ev Hin). congruence. }
    apply elem_of_app in Hin as [Hin|Hin].
    { unfold clean in Hpre. rewrite Forall_forall in Hpre.
      specialize (Hpre ev Hin). congruence. }
    apply list_elem_of_singleton in Hin as ->.
    split; [congruence|]. by exists pre.
  - intros conn q e Hin.
    destruct Horder as [?|(turns & an & found & mid & _ & -> & _ & Hclean & Hq & _)];
      [done|exfalso].
    rewrite (assoc app) in Hin. apply elem_of_app in Hin as [Hin|Hin].
    { unfold clean in Hclean. rewrite Forall_forall in Hclean.
      by specialize (Hclean _ Hin). }
    apply elem_of_cons in Hin as [?|Hin]; [done|].
    apply elem_of_query_results in Hin. rewrite Hq in Hin. by apply elem_of_nil in Hin.
Qed.

(** C7 (as the code has it). The action is looked up as
    [<root>.actions.<name>.action] and the comparator as
    [<root>.comparators.<name>.comparator], and nothing else is imported.
    A name that does not resolve keeps the run from completing and its
    function from being called; the run ends with the resolution error
    when the steps before that lookup succeeded: every source queried
    for the action; the action returned and no push failed for the
    comparator. The lookups are made late: the action is imported only
    after the header and one answered query per source, in order, with
    no failure so far and no query after it; the comparator is imported
    only after the action was found, called and returned a value, that
    value was logged and, with a gateway, pushed. A failure the trace
    records is the last event of the run and its outcome, so that an
    earlier failure is what the run ends with, and a failed query leaves
    nothing imported. *)
Theorem plugins_resolved_by_name E self h o evs :
  check E self h = (o, evs) →
  (∀ a, py_str (action self) = Some a →
     action_module E self
     = Rendered (root_folder E +:+ ".actions." +:+ a +:+ ".action")) ∧
  (∀ c, py_str (comparator self) = Some c →
     comparator_module E self
     = Rendered (root_folder E +:+ ".comparators." +:+ c +:+ ".comparator")) ∧
  (∀ name found, EvImport name found ∈ evs →
     action_module E self = Rendered name ∨
     comparator_module E self = Rendered name) ∧
  (∀ an, action_module E self = Rendered an → (∀ f, ¬ resolves E an f) →
     ¬ returned o ∧ (∀ site, calls_at site evs = []) ∧
     ∀ Rs, query_results evs = Ok <$> Rs → length Rs = length (sources self) →
           ∃ e, o = Raise e ∧ resolution_error e) ∧
  (∀ cn, comparator_module E self = Rendered cn → (∀ g, ¬ resolves E cn g) →
     ¬ returned o ∧ calls_at ComparatorRun evs = [] ∧
     ∀ m, EvLog (LogMetric m) ∈ evs → (∀ req e, EvPush req (Err e) ∉ evs) →
          ∃ e, o = Raise e ∧ resolution_error e) ∧
  (imports evs = [] ∨
   ∃ turns an found mid,
     action_module E self = Rendered an ∧
     evs = header self ++ flat_map turn_events turns ++ EvImport an found :: mid ∧
     Forall2 (λ source t, asks E self source t.1.1 t.1.2) (sources self).*1 turns ∧
     clean (header self ++ flat_map turn_events turns) ∧
     query_results mid = [] ∧
     (imports mid = [] ∨
      ∃ m cn found' tail,
        found = true ∧ comparator_module E self = Rendered cn ∧
        mid = EvCall ActionRun an [row_sets_val turns.*2] ∅ (Ok m)
              :: EvLog (LogMetric m) :: push_events self m
              ++ EvImport cn found' :: tail ∧
        clean (push_events self m) ∧
        imports tail = [] ∧ pushes tail = [] ∧ calls_at ActionRun tail = [])) ∧
  (∀ ev e, ev ∈ evs → failure_of ev = Some e →
     o = Raise e ∧ ∃ pre, evs = pre ++ [ev] ∧ clean pre) ∧
  (∀ conn q e, EvQuery conn q (Err e) ∈ evs → imports evs = []).
Proof.
  intros Hrun.
  destruct (check_plugins_lookup _ _ _ _ _ Hrun) as (H1 & H2 & H3 & H4 & H5).
  destruct (check_import_order _ _ _ _ _ Hrun) as (H6 & H7 & H8).
  split; [exact H1|]. split; [exact H2|]. split; [exact H3|]. split; [exact H4|].
  split; [exact H5|]. split; [exact H6|]. split; [exact H7|exact H8].
Qed.

(** X6. The plugins a run imports are fixed by the metric's entry in the
    table, whatever the sources: for an entry naming action [a] and
    comparator [c], a checker built for the metric imports at most
    [<root>.actions.a.action] and then [<root>.comparators.c.comparator],
    the comparator only after the action. *)
Theorem imports_follow_table_entry E table entry a c name prefix srcs attrs conns gw
    self h o evs :
  read_yml_file E "metrics_description.yml" = Ok table →
  table !! name = Some entry →
  entry !! "action" = Some (VStr a) →
  entry !! "comparator" = Some (VStr c) →
  init E name prefix srcs attrs conns gw = Ok self →
  check E self h = (o, evs) →
  imports evs = [] ∨
  imports evs = [root_folder E +:+ ".actions." +:+ a +:+ ".action"] ∨
  imports evs = [root_folder E +:+ ".actions." +:+ a +:+ ".action";
                 root_folder E +:+ ".comparators." +:+ c +:+ ".comparator"].
Proof.
  intros Hread Hentry Ha Hc Hinit Hrun.
  assert (action self = VStr a ∧ comparator self = VStr c) as [Hsa Hsc].
  { unfold init in Hinit. rewrite Hread in Hinit. simpl in Hinit.
    unfold getitem in Hinit. rewrite Hentry in Hinit. simpl in Hinit.
    rewrite Ha, Hc in Hinit. simpl in Hinit.
    destruct (entry !! "prometheus_documentation"); [|done].
    simpl in Hinit. by injection Hinit as <-. }
  pose proof (action_module_name E self a) as Han. rewrite Hsa in Han.
  specialize (Han eq_refl).
  pose proof (comparator_module_name E self c) as Hcn. rewrite Hsc in Hcn.
  specialize (Hcn eq_refl).
  pose proof (check_stages _ _ _ _ _ Hrun) as (quiet & Hquiet & Hstage).
  pose proof (loop_events_quiet _ Hquiet) as (_ & Himp & _).
  destruct Hstage as [(_ & ->)|(vs & ee & He & ->)]; [by left|].
  rewrite imports_app, Himp. simpl.
  destruct (evaluated_imports_prefix _ _ _ _ _ He)
    as [->|(an & Han' & [->|(cn & Hcn' & ->)])].
  - by left.
  - right. left. congruence.
  - right. right. congruence.
Qed.

(** X7. Construction succeeds exactly when the table file loads, has an
    entry for the metric name as given, and that entry has the three
    fields; the checker then holds the arguments unchanged, the
    lower-cased name and prefix, and the three fields. *)
Theorem init_succeeds_iff E name prefix srcs attrs conns gw self :
  init E name prefix srcs attrs conns gw = Ok self ↔
  ∃ table entry a c d,
    yml_files E !! "metrics_description.yml" = Some table ∧
    table !! name = Some entry ∧
    entry !! "action" = Some a ∧
    entry !! "comparator" = Some c ∧
    entry !! "prometheus_documentation" = Some d ∧
    self = {| metric_name := name;
              prometheus_metric_prefix := lower prefix;
              prometheus_metric_name := lower name;
              sources := srcs;
              attributes := attrs;
              connections := conns;
              prometheus_gateway := gw;
              action := a;
              comparator := c;
              prometheus_documentation := d |}.
Proof.
  unfold init, read_yml_file, getitem. split.
  - destruct (yml_files E !! "metrics_description.yml") as [table|] eqn:Ht; [|done].
    simpl. destruct (table !! name) as [entry|] eqn:He; [|done]. simpl.
    destruct (entry !! "action") as [a|] eqn:Ha; [|done]. simpl.
    destruct (entry !! "comparator") as [c|] eqn:Hc; [|done]. simpl.
    destruct (entry !! "prometheus_documentation") as [d|] eqn:Hd; [|done]. simpl.
    intros [= <-]. by exists table, entry, a, c, d.
  - intros (table & entry & a & c & d & -> & Hentry & Ha & Hc & Hd & ->). simpl.
    rewrite Hentry. simpl. by rewrite Ha, Hc, Hd.
Qed.

(** X8. What a failed construction reports: a missing table file as
    [FileNotFoundError]; a metric name without entry as [KeyError] of the
    name; an entry without one of its fields as [KeyError] of the first
    field missing, in the order action, comparator, documentation. *)
Theorem init_failure_modes E name prefix srcs attrs conns gw :
  (yml_files E !! "metrics_description.yml" = None →
   init E name prefix srcs attrs conns gw
   = Err (FileNotFoundError "metrics_description.yml")) ∧
  (∀ table,
     yml_files E !! "metrics_description.yml" = Some table →
     (table !! name = None →
      init E name prefix srcs attrs conns gw = Err (KeyError (VStr name))) ∧
     (∀ entry, table !! name = Some entry →
        (entry !! "action" = None →
         init E name prefix srcs attrs conns gw = Err (KeyError (VStr "action"))) ∧
        (is_Some (entry !! "action") → entry !! "comparator" = None →
         init E name prefix srcs attrs conns gw = Err (KeyError (VStr "comparator"))) ∧
        (is_Some (entry !! "action") → is_Some (entry !! "comparator") →
         entry !! "prometheus_documentation" = None →
         init E name prefix srcs attrs conns gw
         = Err (KeyError (VStr "prometheus_documentation"))))).
Proof.
  unfold init, read_yml_file, getitem. split.
  - by intros ->.
  - intros table ->. simpl. split.
    + by intros ->.
    + intros entry ->. simpl. split; [|split].
      * by intros ->.
      * intros [a ->] ->. done.
      * intros [a ->] [c ->] ->. done.
Qed.

(** X9. How a turn of the loop fails before it reaches the database, in
    the order the code checks: a missing template file raises
    [FileNotFoundError] and logs nothing; a template that does not render
    raises the templating error and logs nothing; a source without
    ["connection"], or naming a connection that is not configured, raises
    [KeyError] after the rendered query has been logged. In no case is a
    query sent. *)
Theorem turn_failure_modes E self source source_params h :
  source_getitem (sources self) source = Ok source_params →
  (sql_files E !! ("metrics/" +:+ lower (metric_name self) +:+ "/metric.sql") = None →
   query_source E self source h
   = (Raise (FileNotFoundError
               ("metrics/" +:+ lower (metric_name self) +:+ "/metric.sql")), [])) ∧
  (∀ template,
     sql_files E !! ("metrics/" +:+ lower (metric_name self) +:+ "/metric.sql")
       = Some template →
     (∀ e, str_format template (dict_or (attributes self) source_params) = Raised e →
           query_source E self source h = (Raise e, [])) ∧
     (∀ q, str_format template (dict_or (attributes self) source_params) = Rendered q →
        (source_params !! "connection" = None →
         query_source E self source h
         = (Raise (KeyError (VStr "connection")), [EvLog (LogQuery q)])) ∧
        (∀ c, source_params !! "connection" = Some (VStr c) →
              connections self !! c = None →
              query_source E self source h
              = (Raise (KeyError (VStr c)), [EvLog (LogQuery q)])))).
Proof.
  intros Hget. unfold query_source, bind, lift, lift_fmt, info, emit, read_sql_file.
  rewrite Hget. split.
  - by intros ->.
  - intros template ->. split.
    + by intros e ->.
    + intros q ->. unfold getitem. split.
      * by intros ->.
      * intros c -> Hc. unfold connection_of, getitem. by rewrite Hc.
Qed.

(** ** More on templates *)

Lemma scan_double_braces s : scan None (double_braces s) = (literal s, ScanDone).
Proof.
  induction s as [|c s IH]; [done|].
  cbn [double_braces literal].
  destruct (is_brace_open c) eqn:Ho; cbn [orb].
  - cbn [scan]. rewrite Ho. fold (scan None (double_braces s)). by rewrite IH.
  - destruct (is_brace_close c) eqn:Hc.
    + cbn [scan]. rewrite Ho, Hc. fold (scan None (double_braces s)). by rewrite IH.
    + cbn [scan]. rewrite Ho, Hc. fold (scan None (double_braces s)). by rewrite IH.
Qed.

Lemma render_literal kwargs s : ∀ out,
  render kwargs (literal s) ScanDone out = Rendered (out +:+ s).
Proof.
  induction s as [|c s IH]; intros out; cbn [literal render].
  - by rewrite append_nil_r.
  - rewrite IH. by rewrite append_assoc.
Qed.

Lemma double_braces_brace_free s : brace_free s = true → double_braces s = s.
Proof.
  induction s as [|c s IH]; [done|]. cbn [brace_free double_braces].
  intros [Hc Hs]%andb_prop. apply negb_true_iff in Hc. rewrite Hc. by rewrite IH.
Qed.

(** X10. Literal text in a template: a text with every brace doubled
    renders to the text itself, whatever the attributes; so a template
    without any brace is sent as it is. *)
Theorem doubled_braces_render_literally s kwargs :
  str_format (double_braces s) kwargs = Rendered s ∧
  (brace_free s = true → str_format s kwargs = Rendered s).
Proof.
  assert (H : str_format (double_braces s) kwargs = Rendered s).
  { unfold str_format. rewrite scan_double_braces. apply (render_literal kwargs s ""). }
  split; [done|]. intros Hfree. by rewrite double_braces_brace_free in H.
Qed.

Lemma render_agree kw1 kw2 segs fin : ∀ out,
  (∀ n, n ∈ fields segs → kw1 !! n = kw2 !! n) →
  render kw1 segs fin out = render kw2 segs fin out.
Proof.
  induction segs as [|[c|name] segs IH]; intros out Hagree; cbn [render].
  - done.
  - by apply IH.
  - rewrite <- (Hagree name) by (by left).
    destruct (positional name); [done|].
    destruct (kw1 !! name) as [v|]; [|done].
    destruct (py_str v); [|done].
    apply IH. intros n Hn. apply Hagree. by right.
Qed.

(** X11. Rendering looks only at the placeholders the template names:
    two attribute mappings that agree on them give the same result, be
    it the rendered text or the error. Attributes the template does not
    mention (a threshold, the connection name) never change a query. *)
Theorem rendering_ignores_unreferenced_attributes template segs fin kw1 kw2 :
  scan None template = (segs, fin) →
  (∀ n, n ∈ fields segs → kw1 !! n = kw2 !! n) →
  str_format template kw1 = str_format template kw2.
Proof.
  intros Hscan Hagree. unfold str_format. rewrite Hscan. by apply render_agree.
Qed.

(** ** The steps of [fetchall] *)

(** The possible traces of [fetchall]. *)
Lemma fetchall_cases D conn_params query h :
  let '(r, evs) := Driver.fetchall D conn_params query h in
  (∃ e, r = Err e ∧ evs = [Driver.DbConnect conn_params (Err e)])
  ∨ (∃ c e rc, evs = [Driver.DbConnect conn_params (Ok c); Driver.DbCursor c (Err e);
                      Driver.DbCloseConnection c rc] ∧
               r = match rc with Ok _ => Err e | Err e' => Err e' end)
  ∨ (∃ c k e rk rc, evs = [Driver.DbConnect conn_params (Ok c); Driver.DbCursor c (Ok k);
                           Driver.DbExecute k query (Err e);
                           Driver.DbCloseCursor k rk; Driver.DbCloseConnection c rc] ∧
                    r = match rc with
                        | Err e' => Err e'
                        | Ok _ => match rk with Err e' => Err e' | Ok _ => Err e end
                        end)
  ∨ (∃ c k rf rk rc, evs = [Driver.DbConnect conn_params (Ok c); Driver.DbCursor c (Ok k);
                            Driver.DbExecute k query (Ok tt); Driver.DbFetchall k rf;
                            Driver.DbCloseCursor k rk; Driver.DbCloseConnection c rc] ∧
                     r = match rc with
                         | Err e' => Err e'
                         | Ok _ => match rk with Err e' => Err e' | Ok _ => rf end
                         end).
Proof.
  unfold Driver.fetchall, Driver.closing.
  destruct (Driver.connect D h conn_params) as [c|e]; [|left; by exists e].
  destruct (Driver.cursor D _ c) as [k|e].
  - destruct (Driver.execute D _ k query) as [[]|e].
    + do 3 right. cbn. by eexists c, k, _, _, _.
    + right. right. left. cbn. by eexists c, k, e, _, _.
  - right. left. cbn. by eexists c, e, _.
Qed.

(** X12. [fetchall] releases what it acquires, on every path: the
    resources released are exactly those acquired, each once, in reverse
    order - the cursor before its connection - whether the query
    succeeded, failed, or a close itself failed. *)
Theorem fetchall_releases_in_reverse D conn_params query h :
  omap Driver.releases (Driver.fetchall D conn_params query h).2
  = reverse (omap Driver.acquires (Driver.fetchall D conn_params query h).2).
Proof.
  pose proof (fetchall_cases D conn_params query h) as H.
  destruct (Driver.fetchall D conn_params query h) as [r evs].
  destruct H as [(e & _ & ->)|[(c & e & rc & -> & _)|[(c & k & e & rk & rc & -> & _)
                |(c & k & rf & rk & rc & -> & _)]]]; done.
Qed.

Lemma fetchall_outcome_cases D conn_params query h :
  let r := (Driver.fetchall D conn_params query h).1 in
  let evs := (Driver.fetchall D conn_params query h).2 in
  (∀ e, r = Err e ↔ last (omap Driver.db_failure evs) = Some e) ∧
  (∀ records, r = Ok records ↔
     omap Driver.db_failure evs = [] ∧ omap Driver.fetched evs = [Ok records]) ∧
  length (omap Driver.executed evs) ≤ 1 ∧
  (∀ k e, Driver.DbExecute k query (Err e) ∈ evs → omap Driver.fetched evs = []).
Proof.
  pose proof (fetchall_cases D conn_params query h) as H.
  destruct (Driver.fetchall D conn_params query h) as [r evs]. cbn zeta. cbn [fst snd].
  destruct H as [(e & -> & ->)|[(c & e & rc & -> & ->)|[(c & k & e & rk & rc & -> & ->)
                |(c & k & rf & rk & rc & -> & ->)]]].
  - repeat split; cbn; try done; try lia; try by intros [= ->].
    intros []; discriminate.
  - destruct rc as [[]|e']; repeat split; cbn; try done; try lia;
      try (by intros [= ->]); try (intros []; discriminate).
  - destruct rk as [[]|e1], rc as [[]|e2]; repeat split; cbn; try done; try lia;
      try (by intros [= ->]); try (intros []; discriminate).
  - destruct rf as [rws|e0], rk as [[]|e1], rc as [[]|e2];
      repeat split; cbn; try done; try lia;
      try (by intros [= ->]); try (intros []; discriminate);
      try (intros [_ [= ->]]; done); try (by intros ->);
      try (intros k0 e Hin; repeat (apply elem_of_cons in Hin as [?|Hin]; [done|]);
           by apply elem_of_nil in Hin).
  all: by simplify_eq.
Qed.

(** X13. The outcome of [fetchall] is decided by the last step that
    failed: it returns rows only when no step failed - connect, cursor,
    execute, fetch and both closes - and the rows are those fetched;
    otherwise it raises the error of the last failed step, so an error
    of [close] hides an earlier one. A failed step is followed only by
    closes: the query is executed at most once and nothing is fetched
    after a failed [execute]. *)
Theorem fetchall_outcome D conn_params query h :
  let r := (Driver.fetchall D conn_params query h).1 in
  let evs := (Driver.fetchall D conn_params query h).2 in
  (∀ e, r = Err e ↔ last (omap Driver.db_failure evs) = Some e) ∧
  (∀ records, r = Ok records ↔
     omap Driver.db_failure evs = [] ∧ omap Driver.fetched evs = [Ok records]) ∧
  length (omap Driver.executed evs) ≤ 1 ∧
  (∀ k e, Driver.DbExecute k query (Err e) ∈ evs → omap Driver.fetched evs = []).
Proof. apply fetchall_outcome_cases. Qed.

(** ** The database behind a run *)

Section Answers.
Context (E : env).

Lemma answers_recorded_quiet {A} (m : M A) :
  (∀ h o evs, m h = (o, evs) → query_results evs = []) → answers_recorded E m.
Proof.
  intros Hq h o evs Hm pre conn q r post ->. apply Hq in Hm.
  rewrite query_results_app in Hm. by destruct (query_results pre).
Qed.

Lemma answers_recorded_bind {A B} (m : M A) (k : A → M B) :
  answers_recorded E m → (∀ a, answers_recorded E (k a)) →
  answers_recorded E (bind m k).
Proof.
  intros Hm Hk h o evs Hb pre conn q r post Hevs.
  apply bind_inv in Hb as [(a & e1 & e2 & H1 & H2 & ->)|[(e & H1 & ->)|[H1 ->]]];
    [|by eapply Hm..].
  apply app_eq_inv in Hevs as [(l & -> & Hl)|(l & -> & ->)].
  - destruct l as [|ev l]; simpl in Hl.
    + rewrite app_nil_r in H2.
      pose proof (Hk a _ _ _ H2 [] conn q r post (eq_sym Hl)) as Hr.
      by rewrite app_nil_r in Hr.
    + injection Hl as <- ->. by eapply Hm.
  - rewrite (assoc app). by eapply Hk.
Qed.

Lemma answers_recorded_lift {A} (r : result A) : answers_recorded E (lift r).
Proof. apply answers_recorded_quiet. by intros h o evs [_ ->]%lift_inv. Qed.

Lemma answers_recorded_lift_fmt f : answers_recorded E (lift_fmt f).
Proof. apply answers_recorded_quiet. by intros h o evs [_ ->]%lift_fmt_inv. Qed.

Lemma answers_recorded_info r : answers_recorded E (info r).
Proof. apply answers_recorded_quiet. by intros h o evs [_ ->]%info_inv. Qed.

Lemma answers_recorded_fetchall conn_params query :
  answers_recorded E (fetchall E conn_params query).
Proof.
  intros h o evs [= _ <-] pre conn q r post Hevs.
  destruct pre as [|ev pre]; [|by destruct pre].
  injection Hevs as -> -> <- _. by rewrite app_nil_r.
Qed.

Lemma answers_recorded_query_source self source :
  answers_recorded E (query_source E self source).
Proof.
  unfold query_source.
  repeat first [apply answers_recorded_lift | apply answers_recorded_lift_fmt
               | apply answers_recorded_info | apply answers_recorded_fetchall
               | apply answers_recorded_bind; [|intros ?]].
Qed.

Lemma answers_recorded_query_sources self keys : ∀ acc,
  answers_recorded E (query_sources E self keys acc).
Proof.
  induction keys as [|source keys IH]; intros acc.
  - apply answers_recorded_quiet. unfold query_sources, ret. by intros h o evs [= _ <-].
  - change (answers_recorded E
              (bind (query_source E self source)
                    (λ rows, query_sources E self keys (acc ++ [rows])))).
    apply answers_recorded_bind; [apply answers_recorded_query_source|].
    intros rows. apply IH.
Qed.

Lemma answers_recorded_evaluate self vs : answers_recorded E (evaluate E self vs).
Proof.
  apply answers_recorded_quiet. intros h o evs He%evaluate_inv.
  by eapply evaluated_query_results.
Qed.

Lemma answers_recorded_check self : answers_recorded E (check E self).
Proof.
  unfold check.
  repeat first [apply answers_recorded_info
               | apply answers_recorded_query_sources
               | apply answers_recorded_evaluate
               | apply answers_recorded_bind; [|intros ?]].
Qed.
End Answers.

(** The trace does not invent results: each query event of a run
    carries what the database answered, at the history of the run up to
    that event, to the connection parameters and the text the event
    names. *)
Theorem query_results_are_answers E self h o evs pre conn q r post :
  check E self h = (o, evs) →
  evs = pre ++ EvQuery conn q r :: post →
  r = pg_fetchall E (h ++ pre) conn q.
Proof. intros Hrun Hevs. by eapply answers_recorded_check. Qed.

Lemma fetchall_result D conn_params query h :
  let r := (Driver.fetchall D conn_params query h).1 in
  let evs := (Driver.fetchall D conn_params query h).2 in
  (∀ e, r = Err e ↔ last (omap Driver.db_failure evs) = Some e) ∧
  (∀ records, r = Ok records ↔
     omap Driver.db_failure evs = [] ∧ omap Driver.fetched evs = [Ok records]).
Proof.
  destruct (fetchall_outcome_cases D conn_params query h) as (H1 & H2 & _). by split.
Qed.

(** X15. With a driver behind the database, a step of [fetchall] that
    fails - be it closing the connection after the rows were fetched -
    ends the whole run with that error, the rows lost; and a query event
    that carries rows stands for a conversation without any failure. *)
Theorem driver_failure_aborts_run E D self h o evs pre conn q r post :
  driven_by E D →
  check E self h = (o, evs) →
  evs = pre ++ EvQuery conn q r :: post →
  (∀ e, last (omap Driver.db_failure (Driver.fetchall (D (h ++ pre)) conn q []).2) = Some e →
        r = Err e ∧ o = Raise e ∧ post = []) ∧
  (∀ records, r = Ok records →
     omap Driver.db_failure (Driver.fetchall (D (h ++ pre)) conn q []).2 = [] ∧
     omap Driver.fetched (Driver.fetchall (D (h ++ pre)) conn q []).2 = [Ok records]).
Proof.
  intros Hdriven Hrun Hevs.
  pose proof (answers_recorded_check E self _ _ _ Hrun _ _ _ _ _ Hevs) as Hr.
  rewrite Hdriven in Hr.
  destruct (fetchall_result (D (h ++ pre)) conn q []) as (Herr & Hok).
  cbn zeta in Herr, Hok. split.
  - intros e He. apply Herr in He.
    assert (r = Err e) as -> by (by rewrite Hr). split; [done|].
    apply check_fails_last in Hrun. rewrite Hevs in Hrun.
    by destruct (fails_last_at _ _ _ _ e Hrun eq_refl) as [-> ->].
  - intros records ->. by apply Hok.
Qed.

(** * Further properties, on the sample deployment *)

(** The metric [orphans] names an action that is no module: with both
    sources answering, the run ends with the import error. *)
Lemma plugins_resolved_by_name_witness :
  ∃ e, Sample.orphans_run.1 = Raise e ∧ resolution_error e.
Proof.
  destruct (plugins_resolved_by_name Sample.world
              (Sample.orphans Sample.two_sources Sample.gateway) []
              Sample.orphans_run.1 Sample.orphans_run.2)
    as (_ & _ & _ & Hact & _).
  - vm_compute; reflexivity.
  - destruct (Hact "src.actions.no_such_action.action") as (_ & _ & Herr).
    + vm_compute; reflexivity.
    + exact sample_no_such_action.
    + apply (Herr [[[VInt 5]]; [[VInt 7]]]).
      * vm_compute; reflexivity.
      * reflexivity.
Defined.

Lemma first_failure_is_final_witness :
  let self := Sample.row_count Sample.outage_sources Sample.gateway in
  let run := check Sample.world self [] in
  clean run.2 ∨
  ∃ pre ev e, run.2 = pre ++ [ev] ∧ clean pre ∧ failure_of ev = Some e ∧
              run.1 = Raise e.
Proof.
  intros self run.
  apply (first_failure_is_final Sample.world self [] run.1 run.2).
  vm_compute; reflexivity.
Defined.

Lemma completed_run_is_complete_witness :
  let self := Sample.row_count Sample.two_sources Sample.gateway in
  let run := check Sample.world self [] in
  ∃ turns an cn m c,
    length turns = length (sources self) ∧
    Forall2 (λ source t, asks Sample.world self source t.1.1 t.1.2)
            (sources self).*1 turns ∧
    action_module Sample.world self = Rendered an ∧
    comparator_module Sample.world self = Rendered cn ∧
    run.2 = header self ++ flat_map turn_events turns
            ++ [EvImport an true;
                EvCall ActionRun an [row_sets_val turns.*2] ∅ (Ok m);
                EvLog (LogMetric m)]
            ++ push_events self m
            ++ [EvImport cn true;
                EvCall ComparatorRun cn []
                  (dict_or (attributes self) (<["metric" := m]> ∅)) (Ok c);
                EvLog (LogComparisonResult c)].
Proof.
  intros self run.
  apply (completed_run_is_complete Sample.world self [] tt run.2).
  vm_compute; reflexivity.
Defined.

Lemma queries_follow_sources_witness :
  let self := Sample.row_count Sample.outage_sources Sample.gateway in
  let run := check Sample.world self [] in
  length (queries run.2) ≤ length (sources self) ∧
  Forall2 (λ source qu, asks Sample.world self source qu.1.1 qu.1.2)
          (take (length (queries run.2)) (sources self).*1) (queries run.2) ∧
  ∀ i conn q e, queries run.2 !! i = Some (conn, q, Err e) →
                S i = length (queries run.2).
Proof.
  intros self run.
  apply (queries_follow_sources Sample.world self [] run.1 run.2).
  vm_compute; reflexivity.
Defined.


Lemma pushed_gauge_is_action_result_witness :
  let self := Sample.row_count Sample.two_sources Sample.gateway in
  let run := check Sample.world self [] in
  ∃ an vs m,
    calls_at ActionRun run.2 = [(an, [row_sets_val vs], ∅, Ok m)] ∧
    pushes run.2 = [gauge_of self (VInt 12)] ∧
    gauge_value (gauge_of self (VInt 12)) = m ∧
    gauge_labelnames (gauge_of self (VInt 12)) = ["instance"] ∧
    gauge_labels (gauge_of self (VInt 12)) = [("instance", "dq")] ∧
    gauge_documentation (gauge_of self (VInt 12)) = prometheus_documentation self ∧
    gauge_name (gauge_of self (VInt 12)) = prometheus_metric_name self ∧
    push_job (gauge_of self (VInt 12)) = prometheus_metric_prefix self ∧
    push_gateway (gauge_of self (VInt 12)) = prometheus_gateway self.
Proof.
  intros self run.
  apply (pushed_gauge_is_action_result Sample.world self [] run.1 run.2).
  - vm_compute; reflexivity.
  - vm_compute. in_trace.
Defined.


Lemma imports_follow_table_entry_witness :
  let self := Sample.row_count Sample.two_sources Sample.gateway in
  let run := check Sample.world self [] in
  imports run.2 = [] ∨
  imports run.2
  = [root_folder Sample.world +:+ ".actions." +:+ "sum_counts" +:+ ".action"] ∨
  imports run.2
  = [root_folder Sample.world +:+ ".actions." +:+ "sum_counts" +:+ ".action";
     root_folder Sample.world +:+ ".comparators." +:+ "greater_than" +:+ ".comparator"].
Proof.
  intros self run.
  refine (imports_follow_table_entry Sample.world Sample.table
            (Sample.entry "sum_counts" "greater_than") "sum_counts" "greater_than"
            "row_count" "DQ" Sample.two_sources Sample.globals Sample.conns
            Sample.gateway self [] run.1 run.2 _ _ _ _ _ _).
  - reflexivity.
  - vm_compute; reflexivity.
  - vm_compute; reflexivity.
  - vm_compute; reflexivity.
  - vm_compute; reflexivity.
  - vm_compute; reflexivity.
Defined.

Lemma init_succeeds_iff_witness :
  ∃ table entry a c d,
    yml_files Sample.world !! "metrics_description.yml" = Some table ∧
    table !! "Late_Rows" = Some entry ∧
    entry !! "action" = Some a ∧
    entry !! "comparator" = Some c ∧
    entry !! "prometheus_documentation" = Some d ∧
    Sample.late_rows Sample.two_sources None
    = {| metric_name := "Late_Rows";
         prometheus_metric_prefix := lower "DQ";
         prometheus_metric_name := lower "Late_Rows";
         sources := Sample.two_sources;
         attributes := Sample.globals;
         connections := Sample.conns;
         prometheus_gateway := None;
         action := a;
         comparator := c;
         prometheus_documentation := d |}.
Proof.
  apply (proj1 (init_succeeds_iff Sample.world "Late_Rows" "DQ" Sample.two_sources
                  Sample.globals Sample.conns None
                  (Sample.late_rows Sample.two_sources None))).
  vm_compute; reflexivity.
Defined.

(** The entry has its action but no comparator. *)
Lemma init_failure_modes_witness :
  init SampleDb.incomplete_world "row_count" "DQ" [] ∅ ∅ None
  = Err (KeyError (VStr "comparator")).
Proof.
  destruct (init_failure_modes SampleDb.incomplete_world "row_count" "DQ" [] ∅ ∅ None)
    as [_ Htable].
  destruct (Htable {[ "row_count" := {[ "action" := VStr "sum_counts" ]} ]})
    as [_ Hentry]; [vm_compute; reflexivity|].
  destruct (Hentry {[ "action" := VStr "sum_counts" ]}) as (_ & Hcomparator & _);
    [vm_compute; reflexivity|].
  apply Hcomparator; [by eexists | vm_compute; reflexivity].
Defined.

(** The query is rendered and logged, then the connection is missed. *)
Lemma turn_failure_modes_witness :
  query_source Sample.world (Sample.row_count SampleDb.stray_sources None) "x" []
  = (Raise (KeyError (VStr "nowhere")),
     [EvLog (LogQuery "select count(*) from orders where dt = '2024-01-01'")]).
Proof.
  destruct (turn_failure_modes Sample.world
              (Sample.row_count SampleDb.stray_sources None) "x"
              (Sample.src "nowhere" "orders") []) as [_ Htemplate];
    [vm_compute; reflexivity|].
  destruct (Htemplate Sample.count_query) as [_ Hrendered]; [vm_compute; reflexivity|].
  destruct (Hrendered "select count(*) from orders where dt = '2024-01-01'")
    as [_ Hconn]; [vm_compute; reflexivity|].
  apply Hconn; vm_compute; reflexivity.
Defined.

Lemma doubled_braces_render_literally_witness :
  str_format "select '{{}}'::int[]" Sample.globals = Rendered "select '{}'::int[]" ∧
  str_format "select 1" Sample.globals = Rendered "select 1".
Proof.
  split.
  - exact (proj1 (doubled_braces_render_literally "select '{}'::int[]" Sample.globals)).
  - apply (proj2 (doubled_braces_render_literally "select 1" Sample.globals)).
    reflexivity.
Defined.

(** The threshold and the connection name are not in the template. *)
Lemma rendering_ignores_unreferenced_attributes_witness :
  str_format Sample.count_query (dict_or Sample.globals (Sample.src "main" "orders"))
  = str_format Sample.count_query
      (<["table" := VStr "orders"]> (<["dt" := VStr "2024-01-01"]> ∅)).
Proof.
  apply (rendering_ignores_unreferenced_attributes Sample.count_query
           (scan None Sample.count_query).1 (scan None Sample.count_query).2).
  - vm_compute; reflexivity.
  - intros n Hn. vm_compute in Hn.
    apply elem_of_cons in Hn as [->|Hn]; [vm_compute; reflexivity|].
    apply list_elem_of_singleton in Hn as ->. vm_compute; reflexivity.
Defined.

Lemma query_results_are_answers_witness :
  Ok [[VInt 5]]
  = pg_fetchall Sample.world ([] ++ take 5 Sample.normal_run.2) Sample.db1
      "select count(*) from orders where dt = '2024-01-01'".
Proof.
  apply (query_results_are_answers Sample.world
           (Sample.row_count Sample.two_sources Sample.gateway) []
           Sample.normal_run.1 Sample.normal_run.2
           (take 5 Sample.normal_run.2) Sample.db1
           "select count(*) from orders where dt = '2024-01-01'" (Ok [[VInt 5]])
           (drop 6 Sample.normal_run.2)).
  - vm_compute; reflexivity.
  - vm_compute; reflexivity.
Defined.

Lemma sample_driven_by : driven_by Sample.world (λ _, SampleDb.driver).
Proof.
  intros h conn_params query.
  unfold Driver.fetchall, Driver.closing, SampleDb.driver.
  cbn [Driver.connect Driver.cursor Driver.execute Driver.cursor_fetchall
       Driver.cursor_close Driver.connection_close pg_fetchall Sample.world app].
  change (Sample.database [] conn_params "") with (Sample.database h conn_params query).
  by destruct (Sample.database h conn_params query).
Defined.

(** The refused connection of the outage ends the run. *)
Lemma driver_failure_aborts_run_witness :
  Err (External "psycopg2.OperationalError") = Err (External "psycopg2.OperationalError")
    :> result rows ∧
  Sample.outage_run.1 = Raise (External "psycopg2.OperationalError") ∧
  ([] : list event) = [].
Proof.
  apply (proj1 (driver_failure_aborts_run Sample.world (λ _, SampleDb.driver)
                  (Sample.row_count Sample.outage_sources Sample.gateway) []
                  Sample.outage_run.1 Sample.outage_run.2
                  (take 7 Sample.outage_run.2) Sample.db3
                  "select count(*) from orders_old where dt = '2024-01-01'"
                  (Err (External "psycopg2.OperationalError")) []
                  sample_driven_by ltac:(vm_compute; reflexivity)
                  ltac:(vm_compute; reflexivity))
               (External "psycopg2.OperationalError")).
  vm_compute; reflexivity.
Defined.
